(** * Thumbnail pipeline of the image uploader: size formatting and manifest

    Shallow embedding of [src/utils.ts] ([ImageProcessor.humanReadableSize],
    [ImageProcessor.resizeImage], [ImageProcessor.processImage]) and of the
    directory table of [src/config.ts], with the JavaScript and Node
    built-ins they call ([Number.prototype.toString], [parseInt],
    [Number.prototype.toFixed], [path.join], [fs.statSync]). *)

From Stdlib Require Import ZArith QArith Qround Qabs List Sorted String Ascii Lia Lqa Bool.
From stdpp Require Import gmap strings.

Open Scope Z_scope.

(** ** Numbers and strings of the JavaScript runtime

    A JavaScript number that holds an integer is modelled by that integer
    ([Z]); a number that went through [/ 1024] is an exact rational ([Q]):
    dividing a double that is at least 1024 by a power of two is exact.
    [isDouble] tells which integers a number can hold. [NaN] is [None]. *)
Module JS.

Definition digitChar (d : Z) : ascii := ascii_of_nat (Z.to_nat (48 + d)).

Definition digitValue (c : ascii) : option Z :=
  let n := Z.of_nat (nat_of_ascii c) in
  if (48 <=? n) && (n <=? 57) then Some (n - 48) else None.

(** Decimal digits of a non-negative integer, most significant first. *)
Fixpoint digitsFrom (fuel : nat) (n : Z) (acc : list Z) : list Z :=
  match fuel with
  | O => acc
  | S fuel' =>
      if n <? 10 then n :: acc
      else digitsFrom fuel' (n `div` 10) (n `mod` 10 :: acc)
  end.

Definition digits (n : Z) : list Z :=
  digitsFrom (S (Z.to_nat (Z.log2 n))) n [].

Definition showDigits (ds : list Z) : string :=
  string_of_list_ascii (map digitChar ds).

Definition decimal (n : Z) : string := showDigits (digits n).

(** The double nearest to a positive integer (ties to even), as an
    integer: 53 significant bits are kept. *)
Definition roundToDouble (m : Z) : Z :=
  let e := Z.log2 m - 52 in
  if e <=? 0 then m
  else
    let q := m `div` 2 ^ e in
    let r := m `mod` 2 ^ e in
    let half := 2 ^ (e - 1) in
    let q' :=
      if r <? half then q
      else if half <? r then q + 1
      else if Z.even q then q else q + 1 in
    q' * 2 ^ e.

(** The integers a JavaScript number can hold. *)
Definition isDouble (x : Z) : Prop :=
  roundToDouble (Z.abs x) = Z.abs x /\ Z.abs x < 2 ^ 1024.

(** [Number::toString] prints the decimal number with the fewest
    significant digits that still rounds to [x]; [shortest x] is that
    number, searched with [k = 1, 2, ...] significant digits. *)
Fixpoint shortestFrom (fuel : nat) (k nd x : Z) : Z :=
  match fuel with
  | O => x
  | S fuel' =>
      let p := 10 ^ (nd - k) in
      let lo := (x `div` p) * p in
      let hi := lo + p in
      let okLo := roundToDouble lo =? x in
      let okHi := roundToDouble hi =? x in
      if okLo && okHi then
        if x - lo <? hi - x then lo
        else if hi - x <? x - lo then hi
        else if Z.even (x `div` p) then lo else hi
      else if okLo then lo
      else if okHi then hi
      else shortestFrom fuel' (k + 1) nd x
  end.

Definition shortest (x : Z) : Z :=
  let nd := length (digits x) in
  shortestFrom nd 1 (Z.of_nat nd) x.

Fixpoint dropZeros (ds : list Z) : list Z :=
  match ds with
  | 0 :: ds' => dropZeros ds'
  | _ => ds
  end.

Definition stripTrailingZeros (ds : list Z) : list Z :=
  rev (dropZeros (rev ds)).

(** [Number.prototype.toString()] of an integral number: plain decimal
    notation below [10^21], exponent notation from there on. *)
Definition toString (x : Z) : string :=
  let sign := if x <? 0 then "-" else "" in
  let ds := digits (shortest (Z.abs x)) in
  let n := Z.of_nat (length ds) in
  if n <=? 21 then sign +:+ showDigits ds
  else
    let e := "e+" +:+ decimal (n - 1) in
    match stripTrailingZeros ds with
    | [] => sign +:+ e
    | [d] => sign +:+ showDigits [d] +:+ e
    | d :: rest => sign +:+ showDigits [d] +:+ "." +:+ showDigits rest +:+ e
    end.

Definition isWhiteSpace (c : ascii) : bool :=
  let n := nat_of_ascii c in
  ((9 <=? n)%nat && (n <=? 13)%nat) || (n =? 32)%nat.

Fixpoint trimStart (s : string) : string :=
  match s with
  | String c s' => if isWhiteSpace c then trimStart s' else s
  | EmptyString => s
  end.

Fixpoint takeDigits (s : string) : list Z :=
  match s with
  | String c s' =>
      match digitValue c with
      | Some d => d :: takeDigits s'
      | None => []
      end
  | EmptyString => []
  end.

Definition digitsValue (ds : list Z) : Z :=
  fold_left (fun a d => 10 * a + d) ds 0.

(** [parseInt(s, 10)]: white space, an optional sign, then the longest
    run of decimal digits; [NaN] when there is no digit. *)
Definition parseInt (s : string) : option Z :=
  let s := trimStart s in
  let sign :=
    match s with
    | String c _ => if Ascii.eqb c "-" then -1 else 1
    | EmptyString => 1
    end in
  let body :=
    match s with
    | String c s' => if Ascii.eqb c "-" || Ascii.eqb c "+" then s' else s
    | EmptyString => s
    end in
  match takeDigits body with
  | [] => None
  | ds => Some (sign * roundToDouble (digitsValue ds))
  end.

(** [v || 0] for a number [v]: [NaN] and [0] are falsy. *)
Definition orZero (v : option Z) : Z :=
  match v with
  | Some n => if n =? 0 then 0 else n
  | None => 0
  end.

Definition Qltb (x y : Q) : bool := negb (Qle_bool y x).

Definition padZeros (len : nat) (ds : list Z) : list Z :=
  repeat 0 (len - length ds) ++ ds.

(** [x.toFixed(f)]: the integer nearest to [x * 10^f] (the larger one on
    a tie), printed with [f] digits after the point. *)
Definition toFixed (x : Q) (f : nat) : string :=
  let sign := if Qltb x 0 then "-" else "" in
  let x := Qabs x in
  if Qle_bool (inject_Z (10 ^ 21)) x then sign +:+ toString (Qfloor x)
  else
    let n := Qfloor (x * inject_Z (10 ^ Z.of_nat f) + (1 # 2)) in
    let m := digits n in
    match f with
    | O => sign +:+ showDigits m
    | _ =>
        let m := padZeros (S f) m in
        let k := length m in
        sign +:+ showDigits (take (k - f) m) +:+ "." +:+ showDigits (drop (k - f) m)
    end.

End JS.

(** ** [ImageProcessor.humanReadableSize] *)

Definition units : list string :=
  ["B"; "KB"; "MB"; "GB"; "TB"; "PB"; "EB"; "ZB"; "YB"].

(** [units[l]] inside a string concatenation. *)
Definition unitAt (l : Z) : string :=
  match (if l <? 0 then None else units !! Z.to_nat l) with
  | Some u => u
  | None => "undefined"
  end.

(** [while (n >= 1024 && ++l) { n = n / 1024; }] *)
Fixpoint divideLoop (fuel : nat) (n : Q) (l : Z) : Q * Z :=
  match fuel with
  | O => (n, l)
  | S fuel' =>
      if Qle_bool 1024 n then
        let l := l + 1 in
        if l =? 0 then (n, l) else divideLoop fuel' (n / 1024) l
      else (n, l)
  end.

(** The loop has no bound of its own. The model gives it one turn per
    bit of the starting value, which is more than it ever takes
    ([divideLoop_spec], [humanReadableSize_unfold]). *)
Definition loopFuel (n : Z) : nat := S (Z.to_nat (Z.log2 n)).

(** [parseInt(bytes.toString(), 10) || 0] *)
Definition parsedBytes (bytes : Z) : Z :=
  JS.orZero (JS.parseInt (JS.toString bytes)).

Definition humanReadableSize (bytes : Z) : string :=
  let n := parsedBytes bytes in
  let '(n', l) := divideLoop (loopFuel n) (inject_Z n) 0 in
  JS.toFixed n' (if JS.Qltb n' 10 && (0 <? l) then 1 else 0)
    +:+ " " +:+ unitAt l.

(** *** The formatting rule as the specification words it

    The running value after [k] divisions, the index at which the
    divisions stop, and the rendering with zero or one decimal place. *)
Definition dividedValue (n k : Z) : Q := inject_Z n / inject_Z (1024 ^ k).

Definition stopsAt (n k : Z) : Prop :=
  0 <= k /\ (dividedValue n k < 1024)%Q
  /\ forall j, 0 <= j < k -> (1024 <= dividedValue n j)%Q.

(** Nearest integer, the larger one on a tie. *)
Definition nearest (x : Q) : Z := Qfloor (x + (1 # 2)).

Definition renderSize (v : Q) (k : Z) : string :=
  (if (k =? 0) || Qle_bool 10 v then JS.decimal (nearest v)
   else
     let r := nearest (v * 10) in
     JS.decimal (r `div` 10) +:+ "." +:+ JS.decimal (r `mod` 10))
  +:+ " " +:+ unitAt k.

(** ** [path.join] of Node (POSIX flavour) *)
Module Path.

Fixpoint split (s : string) : list string :=
  match s with
  | EmptyString => [""]
  | String c s' =>
      if Ascii.eqb c "/" then "" :: split s'
      else
        match split s' with
        | seg :: segs => String c seg :: segs
        | [] => [String c ""]
        end
  end.

(** One segment of [normalizeString]; [res] is the stack of kept
    segments, last one first. *)
Definition pushSegment (allowAboveRoot : bool) (res : list string) (seg : string)
  : list string :=
  if String.eqb seg "" || String.eqb seg "." then res
  else if String.eqb seg ".." then
    match res with
    | last :: res' =>
        if String.eqb last ".." then
          (if allowAboveRoot then seg :: res else res)
        else res'
    | [] => if allowAboveRoot then [seg] else []
    end
  else seg :: res.

Definition normalizeString (path : string) (allowAboveRoot : bool) : string :=
  String.concat "/" (rev (fold_left (pushSegment allowAboveRoot) (split path) [])).

Definition isAbsolute (path : string) : bool :=
  match path with
  | String c _ => Ascii.eqb c "/"
  | EmptyString => false
  end.

Fixpoint endsWithSlash (path : string) : bool :=
  match path with
  | EmptyString => false
  | String c EmptyString => Ascii.eqb c "/"
  | String _ s' => endsWithSlash s'
  end.

Definition normalize (path : string) : string :=
  if String.eqb path "" then "."
  else
    let absolute := isAbsolute path in
    let trailingSeparator := endsWithSlash path in
    let p := normalizeString path (negb absolute) in
    if String.eqb p "" then
      if absolute then "/" else if trailingSeparator then "./" else "."
    else
      let p := if trailingSeparator then p +:+ "/" else p in
      if absolute then "/" +:+ p else p.

Definition join (args : list string) : string :=
  match List.filter (fun arg => negb (String.eqb arg "")) args with
  | [] => "."
  | parts => normalize (String.concat "/" parts)
  end.

End Path.

(** ** JavaScript objects with string keys, in insertion order *)
Fixpoint objGet {V : Type} (o : list (string * V)) (key : string) : option V :=
  match o with
  | [] => None
  | (k, v) :: o' => if String.eqb k key then Some v else objGet o' key
  end.

Fixpoint objSet {V : Type} (o : list (string * V)) (key : string) (v : V)
  : list (string * V) :=
  match o with
  | [] => [(key, v)]
  | (k, v') :: o' =>
      if String.eqb k key then (k, v) :: o' else (k, v') :: objSet o' key v
  end.

Definition objKeys {V : Type} (o : list (string * V)) : list string := map fst o.

(** ** [src/config.ts] *)
Definition config_filePaths (BASE_DIR : string) : list (string * string) :=
  let uploadDir := Path.join [BASE_DIR; "uploads"] in
  [ ("uploadDir", uploadDir);
    ("uploadDirTemp", Path.join [uploadDir; "temp"]);
    ("THUMB_50x50", Path.join [uploadDir; "temp"; "thumbs"; "50x50"]);
    ("THUMB_150x150", Path.join [uploadDir; "temp"; "thumbs"; "150x150"]);
    ("THUMB_250x250", Path.join [uploadDir; "temp"; "thumbs"; "250x250"]);
    ("THUMB_500x500", Path.join [uploadDir; "temp"; "thumbs"; "500x500"]);
    ("THUMB_1000x1000", Path.join [uploadDir; "temp"; "thumbs"; "1000x1000"]);
    ("THUMB_2000x2000", Path.join [uploadDir; "temp"; "thumbs"; "2000x2000"]) ].

(** ** The world the pipeline runs in

    [disk] maps every path [fs.statSync] can stat to the byte length it
    reports. [console] is what [console.error] printed. [resizeLog] is
    the trace of the calls made to the image codec, each with the disk it
    left behind; the program itself never reads it. *)
Record ResizeEvent := {
  inputPath : string;
  outputPath : string;
  reqWidth : Z;
  reqHeight : Z;
  failure : option string;
  diskAfter : gmap string Z
}.

Record World := {
  disk : gmap string Z;
  console : list string;
  resizeLog : list ResizeEvent
}.

(** A call either returns or throws (an [async] function: resolves or
    rejects). *)
Inductive result (A : Type) : Type :=
| Ok (a : A)
| Throw (error : string).
Arguments Ok {A} a.
Arguments Throw {A} error.

Definition M (A : Type) : Type := World -> result A * World.

Definition ret {A : Type} (a : A) : M A := fun w => (Ok a, w).

Definition throw {A : Type} (error : string) : M A := fun w => (Throw error, w).

Definition bind {A B : Type} (m : M A) (k : A -> M B) : M B :=
  fun w =>
    match m w with
    | (Ok a, w') => k a w'
    | (Throw e, w') => (Throw e, w')
    end.

Notation "x <- m ;; k" := (bind m (fun x => k))
  (at level 90, m at next level, right associativity).
Notation "m ;;; k" := (bind m (fun _ => k))
  (at level 90, right associativity).

(** [fs.statSync(path).size]; a missing path throws. *)
Definition statSync_size (path : string) : M Z :=
  fun w =>
    match disk w !! path with
    | Some size => (Ok size, w)
    | None =>
        (Throw ("ENOENT: no such file or directory, stat '" +:+ path +:+ "'"), w)
    end.

Definition console_error (line : string) : M unit :=
  fun w =>
    (Ok tt, {| disk := disk w; console := console w ++ [line];
               resizeLog := resizeLog w |}).

(** ** The thumbnail pipeline *)
Record Dimensions := { width : Z; height : Z }.

Definition mappings : list (string * Dimensions) :=
  [ ("THUMB_50x50", {| width := 50; height := 50 |});
    ("THUMB_150x150", {| width := 150; height := 150 |});
    ("THUMB_250x250", {| width := 250; height := 250 |});
    ("THUMB_500x500", {| width := 500; height := 500 |});
    ("THUMB_1000x1000", {| width := 1000; height := 1000 |});
    ("THUMB_2000x2000", {| width := 2000; height := 2000 |}) ].

Record Thumbnail := {
  path : string;
  size : string;
  originalSize : string
}.

Record Manifest := {
  original : string;
  thumbnails : list (string * Thumbnail)
}.

Record ImageProcessor := {
  baseDir : string;
  filePaths : list (string * string)
}.

(** The constructor, without the directories it creates on the way (no
    property below looks at them). *)
Definition new_ImageProcessor (dirname : string) : ImageProcessor :=
  {| baseDir := dirname; filePaths := config_filePaths dirname |}.

Section Pipeline.

(** [sharp(inputPath).resize(width, height).toFile(outputPath)], the
    external codec: from the disk and its arguments, the disk it leaves
    and the message of the error it rejects with, if it does. *)
Variable sharp_resize_toFile :
  gmap string Z -> string -> string -> Z -> Z -> gmap string Z * option string.

Definition sharp (input output : string) (w h : Z) : M (option string) :=
  fun world =>
    let '(d, err) := sharp_resize_toFile (disk world) input output w h in
    (Ok err,
     {| disk := d; console := console world;
        resizeLog := resizeLog world ++
          [{| inputPath := input; outputPath := output; reqWidth := w;
              reqHeight := h; failure := err; diskAfter := d |}] |}).

Definition resizeImage (inputPath outputPath : string) (width height : Z)
  : M unit :=
  err <- sharp inputPath outputPath width height ;;
  match err with
  | None => ret tt
  | Some message =>
      console_error ("Failed to resize image. Error: " +:+ message)
  end.

Section ProcessImage.
Variable this : ImageProcessor.
Variables imagePath originalFilename : string.

(** [path.join(this.filePaths[key], originalFilename)]; [path.join]
    rejects an argument that is not a string. *)
Definition outputPathFor (key : string) : M string :=
  match objGet (filePaths this) key with
  | Some dir => ret (Path.join [dir; originalFilename])
  | None =>
      throw "The 'path' argument must be of type string. Received undefined"
  end.

(** The body of [for (const key in mappings)], then the rest of the
    keys. The two [fs.statSync] calls are synchronous and follow the
    awaited resize directly: they see the disk the resize left. *)
Fixpoint forKeys (keys : list string) (result : list (string * Thumbnail))
  : M (list (string * Thumbnail)) :=
  match keys with
  | [] => ret result
  | key :: keys' =>
      outputPath <- outputPathFor key ;;
      dims <- match objGet mappings key with
              | Some dims => ret dims
              | None => throw "Cannot read properties of undefined"
              end ;;
      resizeImage imagePath outputPath (width dims) (height dims) ;;;
      originalStats <- statSync_size imagePath ;;
      let originalFileSizeInBytes := humanReadableSize originalStats in
      stats <- statSync_size outputPath ;;
      let fileSizeInBytes := humanReadableSize stats in
      forKeys keys'
        (objSet result key
           {| path := outputPath; size := fileSizeInBytes;
              originalSize := originalFileSizeInBytes |})
  end.

Definition processImage : M Manifest :=
  result <- forKeys (objKeys mappings) [] ;;
  ret {| original := imagePath; thumbnails := result |}.

End ProcessImage.
End Pipeline.

(** ** Vocabulary of the properties *)

Definition isDigit (d : Z) : Prop := 0 <= d <= 9.

(** What one turn of the loop leaves behind for [key]: the manifest entry
    [t] and the codec call [ev] it made. *)
Definition recorded (this : ImageProcessor) (imagePath originalFilename key : string)
    (t : Thumbnail) (ev : ResizeEvent) : Prop :=
  exists dir dims,
    objGet (filePaths this) key = Some dir /\ objGet mappings key = Some dims
    /\ path t = Path.join [dir; originalFilename]
    /\ inputPath ev = imagePath /\ outputPath ev = path t
    /\ reqWidth ev = width dims /\ reqHeight ev = height dims
    /\ (exists sz, diskAfter ev !! path t = Some sz /\ size t = humanReadableSize sz)
    /\ (exists sz, diskAfter ev !! imagePath = Some sz
                   /\ originalSize t = humanReadableSize sz).


(** A valid input image: resizing it, when it is on disk, leaves it in
    place and leaves a file at the output path. *)
Definition validImage
    (codec : gmap string Z -> string -> string -> Z -> Z -> gmap string Z * option string)
    (imagePath : string) : Prop :=
  forall d out w h, is_Some (d !! imagePath) ->
    is_Some ((codec d imagePath out w h).1 !! imagePath)
    /\ is_Some ((codec d imagePath out w h).1 !! out).

Definition hasVariantDirs (this : ImageProcessor) : Prop :=
  Forall (fun key => is_Some (objGet (filePaths this) key)) (objKeys mappings).

(** Where the derivative of variant [key] goes. *)
Definition outputPathOf (this : ImageProcessor) (originalFilename key : string)
  : string :=
  match objGet (filePaths this) key with
  | Some dir => Path.join [dir; originalFilename]
  | None => ""
  end.

(** The directories configured for the six variants. *)
Definition variantDirs (this : ImageProcessor) : list (option string) :=
  map (objGet (filePaths this)) (objKeys mappings).

Fixpoint noSlash (s : string) : bool :=
  match s with
  | EmptyString => true
  | String c s' => negb (Ascii.eqb c "/") && noSlash s'
  end.

(** A file name that is one ordinary path segment. *)
Definition plainSegment (f : string) : bool :=
  negb (String.eqb f "") && negb (String.eqb f ".") && negb (String.eqb f "..")
  && noSlash f.

(** A directory as [path.join] and [path.resolve] return it: normalized,
    without a trailing separator. *)
Definition normalDir (d : string) : bool :=
  String.eqb (Path.normalize d) d && negb (Path.endsWithSlash d).

(** ** Sample runs *)

(** A codec that writes [w * h] bytes. *)
Definition writingCodec (d : gmap string Z) (input output : string) (w h : Z)
  : gmap string Z * option string :=
  match d !! input with
  | Some _ => (<[output := w * h]> d, None)
  | None => (d, Some "Input file is missing")
  end.

(** A codec that fails, and writes nothing, for one width. *)
Definition failingCodec (failAt : Z) (d : gmap string Z) (input output : string)
    (w h : Z) : gmap string Z * option string :=
  if w =? failAt then (d, Some "unsupported image format")
  else writingCodec d input output w h.

Definition sampleImage : string := "/srv/app/src/uploads/temp/a.png".

Definition sampleProcessor : ImageProcessor := new_ImageProcessor "/srv/app/src".

Definition sampleWorld : World :=
  {| disk := {[ sampleImage := 204800 ]}; console := []; resizeLog := [] |}.

Definition manifestOf (r : result Manifest) : Manifest :=
  match r with
  | Ok m => m
  | Throw _ => {| original := ""; thumbnails := [] |}
  end.

Definition sampleManifest : Manifest :=
  Eval vm_compute in
    manifestOf (processImage writingCodec sampleProcessor sampleImage "a.png" sampleWorld).1.

(** A second upload under the same file name: another image, a disk that
    already holds the derivatives of the first. *)
Definition otherImage : string := "/srv/app/src/uploads/temp/b.png".

Definition otherWorld : World :=
  {| disk :=
       <[ otherImage := 5000 ]>
         (disk (processImage writingCodec sampleProcessor sampleImage "a.png"
                  sampleWorld).2);
     console := []; resizeLog := [] |}.

Definition otherManifest : Manifest :=
  Eval vm_compute in
    manifestOf
      (processImage (failingCodec 0) sampleProcessor otherImage "a.png" otherWorld).1.


(** ** [path.extname] of Node (POSIX flavour) *)
Module PathExt.

(** The variables of the scanning loop of [path.extname]. *)
Record ScanState := {
  startDot : Z;
  startPart : Z;
  endPos : Z;
  matchedSlash : bool;
  preDotState : Z
}.

Definition charAt (path : string) (i : nat) : ascii :=
  match String.get i path with
  | Some c => c
  | None => "000"%char
  end.

(** [for (let i = n - 1; i >= 0; --i)]: the scan from the right, stopping
    at the separator that starts the last component. *)
Fixpoint scan (path : string) (n : nat) (st : ScanState) : ScanState :=
  match n with
  | O => st
  | S i =>
      let c := charAt path i in
      if Ascii.eqb c "/" then
        if negb (matchedSlash st) then
          {| startDot := startDot st; startPart := Z.of_nat i + 1;
             endPos := endPos st; matchedSlash := matchedSlash st;
             preDotState := preDotState st |}
        else scan path i st
      else
        let st :=
          if endPos st =? -1 then
            {| startDot := startDot st; startPart := startPart st;
               endPos := Z.of_nat i + 1; matchedSlash := false;
               preDotState := preDotState st |}
          else st in
        let st :=
          if Ascii.eqb c "." then
            if startDot st =? -1 then
              {| startDot := Z.of_nat i; startPart := startPart st;
                 endPos := endPos st; matchedSlash := matchedSlash st;
                 preDotState := preDotState st |}
            else if negb (preDotState st =? 1) then
              {| startDot := startDot st; startPart := startPart st;
                 endPos := endPos st; matchedSlash := matchedSlash st;
                 preDotState := 1 |}
            else st
          else if negb (startDot st =? -1) then
            {| startDot := startDot st; startPart := startPart st;
               endPos := endPos st; matchedSlash := matchedSlash st;
               preDotState := -1 |}
          else st in
        scan path i st
  end.

Definition extname (path : string) : string :=
  let st :=
    scan path (String.length path)
      {| startDot := -1; startPart := 0; endPos := -1; matchedSlash := true;
         preDotState := 0 |} in
  if (startDot st =? -1) || (endPos st =? -1) || (preDotState st =? 0)
     || ((preDotState st =? 1) && (startDot st =? endPos st - 1)
         && (startDot st =? startPart st + 1))
  then ""
  else
    String.substring (Z.to_nat (startDot st))
      (Z.to_nat (endPos st) - Z.to_nat (startDot st)) path.

(** What the scan keeps true, with the characters from index [n] on
    already seen. *)
Definition scanned (path : string) (n : Z) (st : ScanState) : Prop :=
  (endPos st = -1 /\ startDot st = -1)
  \/ (matchedSlash st = false /\ 0 <= n /\ n < endPos st
      /\ (forall j, (Z.of_nat j < endPos st) -> n <= Z.of_nat j ->
                    Ascii.eqb (charAt path j) "/" = false)
      /\ (startDot st = -1 \/ n <= startDot st < endPos st)).

Definition settled (path : string) (st : ScanState) : Prop :=
  startDot st = -1
  \/ (0 <= startDot st < endPos st
      /\ forall j, startDot st <= Z.of_nat j < endPos st ->
                   Ascii.eqb (charAt path j) "/" = false).

End PathExt.

(** A directory as [path.resolve] returns it: absolute, normalized,
    without a trailing separator. *)
Definition resolvedDir (d : string) : bool := Path.isAbsolute d && normalDir d.

(** ** [src/uploader.ts] and the upload route of [src/index.ts] *)

Fixpoint allChars (p : ascii -> bool) (s : string) : bool :=
  match s with
  | EmptyString => true
  | String c s' => p c && allChars p s'
  end.

Definition isHexOrDash (c : ascii) : bool :=
  let n := nat_of_ascii c in
  ((48 <=? n) && (n <=? 57) || (97 <=? n) && (n <=? 102) || (n =? 45))%nat.

(** What [v4()] of the uuid package returns: 36 characters, hexadecimal
    digits and dashes. *)
Definition isUuid (s : string) : bool :=
  (String.length s =? 36)%nat && allChars isHexOrDash s.

(** The file object multer hands to the route. *)
Module MulterFile.
Record t := {
  originalname : string;
  filename : string;
  path : string;
  size : Z;
  mimetype : string
}.
End MulterFile.

(** [destination] of [diskStorage]: [config.filePaths.uploadDirTemp]. *)
Definition diskStorage_destination (BASE_DIR : string) : string :=
  match objGet (config_filePaths BASE_DIR) "uploadDirTemp" with
  | Some dir => dir
  | None => "undefined"
  end.

(** [filename] of [diskStorage]:
    [`${v4()}${path.extname(file.originalname)}`], with the value [v4()]
    returned. *)
Definition diskStorage_filename (uuid originalname : string) : string :=
  uuid +:+ PathExt.extname originalname.

(** The file as multer's disk storage leaves it: stored at
    [path.join(destination, filename)]. *)
Definition storedFile (BASE_DIR uuid originalname mimetype : string) (size : Z)
  : MulterFile.t :=
  let filename := diskStorage_filename uuid originalname in
  {| MulterFile.originalname := originalname;
     MulterFile.filename := filename;
     MulterFile.path := Path.join [diskStorage_destination BASE_DIR; filename];
     MulterFile.size := size;
     MulterFile.mimetype := mimetype |}.

(** One element of the response of [POST /upload]. *)
Module FileDetails.
Record t := {
  originalName : string;
  fileName : string;
  path : string;
  size : Z;
  mimetype : string;
  original : string;
  thumbnails : list (string * Thumbnail)
}.
End FileDetails.

(** The callback of [files.map] in the route, for one file; [dirname] is
    [__dirname]. *)
Definition fileDetailsOf
    (codec : gmap string Z -> string -> string -> Z -> Z -> gmap string Z * option string)
    (dirname : string) (file : MulterFile.t) : M FileDetails.t :=
  let imageProcessor := new_ImageProcessor dirname in
  details <- processImage codec imageProcessor (MulterFile.path file)
               (MulterFile.filename file) ;;
  ret {| FileDetails.originalName := MulterFile.originalname file;
         FileDetails.fileName := MulterFile.filename file;
         FileDetails.path := MulterFile.path file;
         FileDetails.size := MulterFile.size file;
         FileDetails.mimetype := MulterFile.mimetype file;
         FileDetails.original := original details;
         FileDetails.thumbnails := thumbnails details |}.

Definition sampleUuid : string := "3b241101-e2bb-4255-8caf-4136c566a962".

Definition sampleUpload : MulterFile.t :=
  storedFile "/srv/app/src" sampleUuid "../../holiday.photo.JPG" "image/jpeg" 204800.

Definition otherUuid : string := "9f1c7a30-5d2e-4b8a-a0c3-7e5b1d2f4a68".

Definition otherUpload : MulterFile.t :=
  storedFile "/srv/app/src" otherUuid "holiday.photo.JPG" "image/jpeg" 5000.

Definition uploadWorld : World :=
  {| disk := {[ MulterFile.path sampleUpload := 204800;
                MulterFile.path otherUpload := 5000 ]};
     console := []; resizeLog := [] |}.

(** The six variant directories, below the base directory. *)
Definition thumbSuffixes : list string :=
  ["/uploads/temp/thumbs/50x50"; "/uploads/temp/thumbs/150x150";
   "/uploads/temp/thumbs/250x250"; "/uploads/temp/thumbs/500x500";
   "/uploads/temp/thumbs/1000x1000"; "/uploads/temp/thumbs/2000x2000"].

(** The paths one upload touches: the stored file, then its six
    derivatives. *)
Definition uploadPaths (d : FileDetails.t) : list string :=
  FileDetails.path d :: map (fun kt : string * Thumbnail => path kt.2)
                          (FileDetails.thumbnails d).

(** The lines [resizeImage] prints for a list of codec calls: one for
    each call that failed. *)
Definition failureLines (evs : list ResizeEvent) : list string :=
  flat_map (fun ev =>
              match failure ev with
              | Some message => ["Failed to resize image. Error: " +:+ message]
              | None => []
              end) evs.

(** The calls [evs] are what the codec does, one after the other, from
    the disk [d]. *)
Fixpoint replayed
    (codec : gmap string Z -> string -> string -> Z -> Z -> gmap string Z * option string)
    (d : gmap string Z) (evs : list ResizeEvent) : Prop :=
  match evs with
  | [] => True
  | ev :: evs' =>
      codec d (inputPath ev) (outputPath ev) (reqWidth ev) (reqHeight ev)
      = (diskAfter ev, failure ev)
      /\ replayed codec (diskAfter ev) evs'
  end.

Definition lastDisk (d : gmap string Z) (evs : list ResizeEvent) : gmap string Z :=
  List.last (map diskAfter evs) d.

(** The message of the error [fs.statSync] throws for a missing path. *)
Definition enoent (path : string) : string :=
  "ENOENT: no such file or directory, stat '" +:+ path +:+ "'".

(** The codec leaves the entry of the image alone. *)
Definition keepsImage
    (codec : gmap string Z -> string -> string -> Z -> Z -> gmap string Z * option string)
    (imagePath : string) : Prop :=
  forall d out w h, (codec d imagePath out w h).1 !! imagePath = d !! imagePath.

(** Why a run of the loop over [keys] can throw: a directory that is not
    configured, an entry missing from the table, or a path that
    [fs.statSync] does not find on the disk the run ends with. *)
Definition throwReason (this : ImageProcessor) (imagePath originalFilename : string)
    (keys : list string) (w' : World) (e : string) : Prop :=
  (exists key, In key keys /\ objGet (filePaths this) key = None
     /\ e = "The 'path' argument must be of type string. Received undefined")
  \/ (exists key, In key keys /\ objGet mappings key = None)
  \/ (exists p, e = enoent p /\ disk w' !! p = None
        /\ (p = imagePath
            \/ exists key, In key keys /\ p = outputPathOf this originalFilename key)).

(** A codec that always fails and writes nothing. *)
Definition rejectingCodec (d : gmap string Z) (input output : string) (w h : Z)
  : gmap string Z * option string :=
  (d, Some "Input file contains unsupported image format").

(** The disk after a first, successful run: the derivatives are there. *)
Definition staleWorld : World :=
  {| disk := disk (processImage writingCodec sampleProcessor sampleImage "a.png"
                     sampleWorld).2;
     console := []; resizeLog := [] |}.

Definition staleManifest : Manifest :=
  Eval vm_compute in
    manifestOf
      (processImage rejectingCodec sampleProcessor sampleImage "a.png" staleWorld).1.


(** A codec that, like sharp, refuses to write over its input. *)
Definition guardedCodec (d : gmap string Z) (input output : string) (w h : Z)
  : gmap string Z * option string :=
  if String.eqb input output
  then (d, Some "Cannot use same file for input and output")
  else writingCodec d input output w h.

Definition fileDetailsOr (r : result FileDetails.t) : FileDetails.t :=
  match r with
  | Ok d => d
  | Throw _ =>
      {| FileDetails.originalName := ""; FileDetails.fileName := "";
         FileDetails.path := ""; FileDetails.size := 0;
         FileDetails.mimetype := ""; FileDetails.original := "";
         FileDetails.thumbnails := [] |}
  end.

Definition sampleFileDetails : FileDetails.t :=
  Eval vm_compute in
    fileDetailsOr (fileDetailsOf writingCodec "/srv/app/src" sampleUpload uploadWorld).1.

Definition otherFileDetails : FileDetails.t :=
  Eval vm_compute in
    fileDetailsOr (fileDetailsOf guardedCodec "/srv/app/src" otherUpload uploadWorld).1.

(** ** The file helpers of [src/utils.ts]

    The file system as [fs.existsSync], [fs.statSync(p).isDirectory()] and
    [fs.readdirSync] see it: what is at each path, and for a directory the
    names it lists. *)
Inductive Entry : Type :=
| File
| Dir (names : list string).

Definition existsSync (fs : gmap string Entry) (path : string) : bool :=
  match fs !! path with
  | Some _ => true
  | None => false
  end.

Definition readdirSync (fs : gmap string Entry) (path : string)
  : result (list string) :=
  match fs !! path with
  | Some (Dir names) => Ok names
  | Some File => Throw ("ENOTDIR: not a directory, scandir '" +:+ path +:+ "'")
  | None => Throw ("ENOENT: no such file or directory, scandir '" +:+ path +:+ "'")
  end.

(** [fs.statSync(path).isDirectory()] *)
Definition statSync_isDirectory (fs : gmap string Entry) (path : string)
  : result bool :=
  match fs !! path with
  | Some (Dir _) => Ok true
  | Some File => Ok false
  | None => Throw (enoent path)
  end.

(** [dirExistSync] *)
Definition dirExistSync (fs : gmap string Entry) (path : string) : bool :=
  existsSync fs path.

(** How a call that fills the array [files_] ends: it returns the array,
    or throws with the array as it is by then; the model can also run out
    of fuel. *)
Inductive Listing : Type :=
| Returned (files_ : list string)
| Thrown (error : string) (files_ : list string)
| OutOfFuel.

(** [for (const i in files)] of [getFiles]; [recur] is the recursive
    call. *)
Fixpoint forNames (recur : string -> list string -> Listing)
    (fs : gmap string Entry) (dir : string) (files : list string)
    (files_ : list string) : Listing :=
  match files with
  | [] => Returned files_
  | file :: rest =>
      let name := dir +:+ "/" +:+ file in
      match statSync_isDirectory fs name with
      | Throw e => Thrown e files_
      | Ok true =>
          match recur name files_ with
          | Returned files_ => forNames recur fs dir rest files_
          | other => other
          end
      | Ok false => forNames recur fs dir rest (files_ ++ [name])
      end
  end.

Fixpoint getFilesFuel (fuel : nat) (fs : gmap string Entry) (dir : string)
    (files_ : list string) : Listing :=
  match fuel with
  | O => OutOfFuel
  | S fuel' =>
      match readdirSync fs dir with
      | Throw e => Thrown e files_
      | Ok files => forNames (getFilesFuel fuel' fs) fs dir files files_
      end
  end.

(** The longest path of the file system: no directory lies deeper. *)
Definition longestPath (fs : gmap string Entry) : nat :=
  list_max (map (fun kv : string * Entry => String.length kv.1) (map_to_list fs)).

Definition getFiles (fs : gmap string Entry) (dir : string) (files_ : list string)
  : Listing :=
  getFilesFuel (S (longestPath fs - String.length dir)) fs dir files_.

(** [getFilesSync]: the same text under another name. *)
Fixpoint forNamesSync (recur : string -> list string -> Listing)
    (fs : gmap string Entry) (dir : string) (files : list string)
    (files_ : list string) : Listing :=
  match files with
  | [] => Returned files_
  | file :: rest =>
      let name := dir +:+ "/" +:+ file in
      match statSync_isDirectory fs name with
      | Throw e => Thrown e files_
      | Ok true =>
          match recur name files_ with
          | Returned files_ => forNamesSync recur fs dir rest files_
          | other => other
          end
      | Ok false => forNamesSync recur fs dir rest (files_ ++ [name])
      end
  end.

Fixpoint getFilesSyncFuel (fuel : nat) (fs : gmap string Entry) (dir : string)
    (files_ : list string) : Listing :=
  match fuel with
  | O => OutOfFuel
  | S fuel' =>
      match readdirSync fs dir with
      | Throw e => Thrown e files_
      | Ok files => forNamesSync (getFilesSyncFuel fuel' fs) fs dir files files_
      end
  end.

Definition getFilesSync (fs : gmap string Entry) (dir : string)
    (files_ : list string) : Listing :=
  getFilesSyncFuel (S (longestPath fs - String.length dir)) fs dir files_.

(** The files below a directory: those it lists, and those below the
    directories it lists. *)
Inductive FileUnder (fs : gmap string Entry) : string -> string -> Prop :=
| FileHere dir names file :
    fs !! dir = Some (Dir names) -> In file names ->
    fs !! (dir +:+ "/" +:+ file) = Some File ->
    FileUnder fs dir (dir +:+ "/" +:+ file)
| FileBelow dir names file names' p :
    fs !! dir = Some (Dir names) -> In file names ->
    fs !! (dir +:+ "/" +:+ file) = Some (Dir names') ->
    FileUnder fs (dir +:+ "/" +:+ file) p ->
    FileUnder fs dir p.

Definition sampleTree : gmap string Entry :=
  {[ "/data" := Dir ["a.png"; "thumbs"; "b.png"];
     "/data/a.png" := File;
     "/data/b.png" := File;
     "/data/thumbs" := Dir ["50x50"; "notes.txt"];
     "/data/thumbs/50x50" := Dir ["a.png"];
     "/data/thumbs/50x50/a.png" := File;
     "/data/thumbs/notes.txt" := File ]}.


(** What makes [getFiles] throw: the directory cannot be listed, or
    somewhere below it a listed name has nothing behind it. *)
Inductive Broken (fs : gmap string Entry) : string -> Prop :=
| BrokenMissing dir :
    fs !! dir = None -> Broken fs dir
| BrokenNotDir dir :
    fs !! dir = Some File -> Broken fs dir
| BrokenName dir names file :
    fs !! dir = Some (Dir names) -> In file names ->
    fs !! (dir +:+ "/" +:+ file) = None ->
    Broken fs dir
| BrokenBelow dir names file names' :
    fs !! dir = Some (Dir names) -> In file names ->
    fs !! (dir +:+ "/" +:+ file) = Some (Dir names') ->
    Broken fs (dir +:+ "/" +:+ file) ->
    Broken fs dir.

Definition danglingTree : gmap string Entry :=
  <["/data/thumbs" := Dir ["50x50"; "gone"; "notes.txt"]]> sampleTree.

(** What the loop over [names] of directory [dir] finds, and what breaks
    it. *)
Definition foundVia (fs : gmap string Entry) (dir : string) (names : list string)
    (p : string) : Prop :=
  exists file, In file names /\
    ((fs !! (dir +:+ "/" +:+ file) = Some File /\ p = dir +:+ "/" +:+ file) \/
     (exists names', fs !! (dir +:+ "/" +:+ file) = Some (Dir names') /\
                     FileUnder fs (dir +:+ "/" +:+ file) p)).

Definition brokenVia (fs : gmap string Entry) (dir : string) (names : list string)
  : Prop :=
  exists file, In file names /\
    (fs !! (dir +:+ "/" +:+ file) = None \/
     (exists names', fs !! (dir +:+ "/" +:+ file) = Some (Dir names') /\
                     Broken fs (dir +:+ "/" +:+ file))).

(** What a listing with [fuel] says: a returned array is the given one
    followed by exactly the paths [found], and nothing is [broken]; a
    thrown one is an extension too, and something is [broken]; fuel runs
    out only if it is short of the longest path. *)
Definition listingOutcome (fs : gmap string Entry) (fuel : nat) (dir : string)
    (found : string -> Prop) (broken : Prop) (files_ : list string) (r : Listing)
  : Prop :=
  match r with
  | Returned l =>
      (exists new, l = files_ ++ new /\ forall p, In p new <-> found p) /\ ~ broken
  | Thrown e l => (exists new, l = files_ ++ new) /\ broken
  | OutOfFuel => (fuel <= longestPath fs - String.length dir)%nat
  end.

(** What [createDirectory] can hand back: [false], or what
    [fs.mkdirSync] returned (the first directory created, or
    [undefined]). *)
Inductive JsValue : Type :=
| JsBoolean (b : bool)
| JsString (s : string)
| JsUndefined.

(** The file system together with the lines of [console.log]. *)
Record Host := {
  tree : gmap string Entry;
  stdout : list string
}.

Section FileSystem.

(** [fs.mkdirSync(path, { recursive: true })] and [fs.unlinkSync(path)]:
    the file system they leave, and what they return or throw. *)
Variable mkdirSync :
  gmap string Entry -> string -> result (option string) * gmap string Entry.
Variable unlinkSync :
  gmap string Entry -> string -> result unit * gmap string Entry.

Definition createDirectory (fs : gmap string Entry) (path : string)
  : result JsValue * gmap string Entry :=
  if negb (existsSync fs path) then
    match mkdirSync fs path with
    | (Ok (Some first), fs') => (Ok (JsString first), fs')
    | (Ok None, fs') => (Ok JsUndefined, fs')
    | (Throw e, fs') => (Throw e, fs')
    end
  else (Ok (JsBoolean false), fs).

Definition deleteFile (h : Host) (path : string) : result unit * Host :=
  if existsSync (tree h) path then
    match unlinkSync (tree h) path with
    | (Ok _, fs') => (Ok tt, {| tree := fs'; stdout := stdout h |})
    | (Throw message, fs') =>
        (Ok tt, {| tree := fs'; stdout := stdout h ++ [message] |})
    end
  else (Ok tt, h).

(** The loop of the constructor over the keys of [config.filePaths]. *)
Fixpoint ensureDirs (this : ImageProcessor) (keys : list string)
    (fs : gmap string Entry) : result unit * gmap string Entry :=
  match keys with
  | [] => (Ok tt, fs)
  | key :: rest =>
      match objGet (filePaths this) key with
      | None =>
          (Throw "The 'path' argument must be of type string or an instance of Buffer or URL. Received undefined", fs)
      | Some dir =>
          if negb (existsSync fs dir) then
            match mkdirSync fs dir with
            | (Ok _, fs') => ensureDirs this rest fs'
            | (Throw e, fs') => (Throw e, fs')
            end
          else ensureDirs this rest fs
      end
  end.

(** [new ImageProcessor()], with the directories it creates; [dirname]
    is [path.resolve(__dirname)]. *)
Definition ImageProcessor_constructor (dirname : string) (fs : gmap string Entry)
  : result ImageProcessor * gmap string Entry :=
  let this := new_ImageProcessor dirname in
  match ensureDirs this (objKeys (config_filePaths dirname)) fs with
  | (Ok _, fs') => (Ok this, fs')
  | (Throw e, fs') => (Throw e, fs')
  end.

(** The [destination] callback of the disk storage: the directory handed
    to [cb]. *)
Definition diskStorage_destination_cb (BASE_DIR : string) (fs : gmap string Entry)
  : result string * gmap string Entry :=
  let fileDestination := diskStorage_destination BASE_DIR in
  match createDirectory fs fileDestination with
  | (Ok _, fs') => (Ok fileDestination, fs')
  | (Throw e, fs') => (Throw e, fs')
  end.

End FileSystem.

(** What is asked of [fs.mkdirSync(path, { recursive: true })]: when it
    returns, something is at the path, and nothing that was there before
    has gone. *)
Definition mkdirContract
    (mkdirSync : gmap string Entry -> string ->
                 result (option string) * gmap string Entry) : Prop :=
  forall fs path r fs',
    mkdirSync fs path = (Ok r, fs') ->
    existsSync fs' path = true /\
    forall q, existsSync fs q = true -> existsSync fs' q = true.

(** A [mkdirSync] for the sample runs: it creates the directory when
    nothing is there. *)
Definition sampleMkdir (fs : gmap string Entry) (path : string)
  : result (option string) * gmap string Entry :=
  match fs !! path with
  | Some (Dir _) => (Ok None, fs)
  | Some File => (Throw ("EEXIST: file already exists, mkdir '" +:+ path +:+ "'"), fs)
  | None => (Ok (Some path), <[path := Dir []]> fs)
  end.

(** An [unlinkSync] for the sample runs: it removes files and refuses
    directories. *)
Definition sampleUnlink (fs : gmap string Entry) (path : string)
  : result unit * gmap string Entry :=
  match fs !! path with
  | Some File => (Ok tt, delete path fs)
  | Some (Dir _) => (Throw ("EISDIR: illegal operation on a directory, unlink '" +:+ path +:+ "'"), fs)
  | None => (Throw ("ENOENT: no such file or directory, unlink '" +:+ path +:+ "'"), fs)
  end.

(** A [mkdirSync] that always throws. *)
Definition refusingMkdir (fs : gmap string Entry) (path : string)
  : result (option string) * gmap string Entry :=
  (Throw ("EACCES: permission denied, mkdir '" +:+ path +:+ "'"), fs).

(** The file system after a first construction on an empty one. *)
Definition provisionedTree : gmap string Entry :=
  (ImageProcessor_constructor sampleMkdir "/srv/app/src" ∅).2.

(** * Facts about the built-ins *)
Module JSFacts.
Import JS.

Lemma digitsFrom_app fuel : forall n acc,
  digitsFrom fuel n acc = digitsFrom fuel n [] ++ acc.
Proof.
  induction fuel as [|fuel IH]; intros n acc; simpl; [reflexivity|].
  destruct (n <? 10); [reflexivity|].
  rewrite (IH _ (_ :: acc)), (IH _ [_]), <- app_assoc. reflexivity.
Qed.

Lemma digitsValue_snoc ds d : digitsValue (ds ++ [d]) = 10 * digitsValue ds + d.
Proof. unfold digitsValue. rewrite fold_left_app. reflexivity. Qed.

Lemma log2_div10 n : 10 <= n -> Z.log2 (n `div` 10) < Z.log2 n.
Proof.
  intros Hn.
  assert (H2 : Z.log2 (n `div` 2) = Z.log2 n - 1).
  { replace (n `div` 2) with (Z.shiftr n 1)
      by (rewrite Z.shiftr_div_pow2 by lia; reflexivity).
    rewrite Z.log2_shiftr by lia.
    assert (1 <= Z.log2 n) by (apply (Z.log2_le_pow2 n 1); lia). lia. }
  assert (Z.log2 (n `div` 10) <= Z.log2 (n `div` 2)).
  { apply Z.log2_le_mono. apply Z.div_le_compat_l; lia. }
  lia.
Qed.

Lemma digitsFrom_spec fuel : forall n,
  0 <= n -> Z.log2 n < Z.of_nat fuel ->
  exists d ds, digitsFrom fuel n [] = d :: ds /\ Forall isDigit (d :: ds)
    /\ digitsValue (d :: ds) = n /\ (0 < n -> 1 <= d).
Proof.
  induction fuel as [|fuel IH]; intros n Hn Hf.
  - pose proof (Z.log2_nonneg n). lia.
  - simpl. destruct (n <? 10) eqn:E.
    + apply Z.ltb_lt in E. exists n, []. split; [reflexivity|]. split; [|split].
      * repeat constructor; unfold isDigit; lia.
      * unfold digitsValue; simpl; lia.
      * lia.
    + apply Z.ltb_ge in E.
      destruct (IH (n `div` 10)) as (d & ds & Hd & Hall & Hv & Hpos).
      { apply Z.div_pos; lia. }
      { pose proof (log2_div10 n E). lia. }
      rewrite digitsFrom_app, Hd. exists d, (ds ++ [n `mod` 10]). split; [reflexivity|]. split; [|split].
      * change (d :: ds ++ [n `mod` 10]) with ((d :: ds) ++ [n `mod` 10]).
        apply Forall_app; split; [assumption|].
        constructor; [|constructor]. unfold isDigit.
        pose proof (Z.mod_pos_bound n 10). lia.
      * change (d :: ds ++ [n `mod` 10]) with ((d :: ds) ++ [n `mod` 10]).
        rewrite digitsValue_snoc, Hv. pose proof (Z.div_mod n 10). lia.
      * intros _. apply Hpos. apply Z.div_str_pos; lia.
Qed.

Lemma digits_spec n : 0 <= n ->
  exists d ds, digits n = d :: ds /\ Forall isDigit (d :: ds)
    /\ digitsValue (d :: ds) = n /\ (0 < n -> 1 <= d).
Proof.
  intros Hn. apply digitsFrom_spec; [assumption|].
  pose proof (Z.log2_nonneg n). lia.
Qed.

Lemma fold_digits_bounds ds : forall a, 0 <= a -> Forall isDigit ds ->
  a * 10 ^ Z.of_nat (length ds) <= fold_left (fun a d => 10 * a + d) ds a
    < (a + 1) * 10 ^ Z.of_nat (length ds).
Proof.
  induction ds as [|d ds IH]; intros a Ha Hall.
  - simpl. lia.
  - pose proof (Forall_inv Hall) as Hd. pose proof (Forall_inv_tail Hall) as Hds.
    unfold isDigit in Hd.
    cbn [fold_left length]. rewrite Nat2Z.inj_succ, Z.pow_succ_r by lia.
    specialize (IH (10 * a + d) ltac:(lia) Hds).
    assert (0 < 10 ^ Z.of_nat (length ds)) by (apply Z.pow_pos_nonneg; lia).
    nia.
Qed.

Lemma digits_length_bounds n : 0 < n ->
  10 ^ (Z.of_nat (length (digits n)) - 1) <= n < 10 ^ Z.of_nat (length (digits n)).
Proof.
  intros Hn. destruct (digits_spec n ltac:(lia)) as (d & ds & Hd & Hall & Hv & Hpos).
  rewrite Hd. specialize (Hpos Hn).
  pose proof (Forall_inv Hall) as Hd0. pose proof (Forall_inv_tail Hall) as Hds.
  unfold isDigit in Hd0.
  unfold digitsValue in Hv. cbn [fold_left] in Hv.
  pose proof (fold_digits_bounds ds (10 * 0 + d) ltac:(lia) Hds) as B.
  rewrite Hv in B. cbn [length]. rewrite Nat2Z.inj_succ.
  replace (Z.succ (Z.of_nat (length ds)) - 1) with (Z.of_nat (length ds)) by lia.
  rewrite Z.pow_succ_r by lia.
  assert (0 < 10 ^ Z.of_nat (length ds)) by (apply Z.pow_pos_nonneg; lia).
  nia.
Qed.

Ltac digit_cases d H :=
  unfold isDigit in H;
  assert (d = 0 \/ d = 1 \/ d = 2 \/ d = 3 \/ d = 4 \/ d = 5 \/ d = 6 \/ d = 7
          \/ d = 8 \/ d = 9) as Hcases by lia;
  repeat (destruct Hcases as [-> | Hcases]); [..|subst d].

Lemma digitValue_digitChar d : isDigit d -> digitValue (digitChar d) = Some d.
Proof. intros H. digit_cases d H; reflexivity. Qed.

Lemma digitChar_not_space d : isDigit d -> isWhiteSpace (digitChar d) = false.
Proof. intros H. digit_cases d H; reflexivity. Qed.

Lemma digitChar_not_sign d :
  isDigit d -> Ascii.eqb (digitChar d) "-" = false /\ Ascii.eqb (digitChar d) "+" = false.
Proof. intros H. digit_cases d H; split; reflexivity. Qed.

Lemma takeDigits_show ds rest : Forall isDigit ds ->
  takeDigits (showDigits ds +:+ rest) = ds ++ takeDigits rest.
Proof.
  induction 1 as [|d ds Hd Hds IH]; [reflexivity|].
  change (showDigits (d :: ds) +:+ rest)
    with (String (digitChar d) (showDigits ds +:+ rest)).
  change (takeDigits (String (digitChar d) (showDigits ds +:+ rest)))
    with (match digitValue (digitChar d) with
          | Some v => v :: takeDigits (showDigits ds +:+ rest)
          | None => []
          end).
  rewrite (digitValue_digitChar d Hd), IH. reflexivity.
Qed.

Lemma append_empty_r (s : string) : s +:+ "" = s.
Proof.
  induction s as [|c s IH]; [reflexivity|].
  change (String c (s +:+ "") = String c s). rewrite IH. reflexivity.
Qed.

Lemma takeDigits_show_all ds : Forall isDigit ds -> takeDigits (showDigits ds) = ds.
Proof.
  intros H. pose proof (takeDigits_show ds "" H) as E.
  cbn [takeDigits] in E. rewrite app_nil_r, append_empty_r in E. exact E.
Qed.

Section Shortest.
Variable x : Z.
Hypothesis Hx : 0 < x.
Let nd := Z.of_nat (length (digits x)).

Lemma shortestFrom_spec fuel : forall k,
  1 <= k -> k + Z.of_nat fuel = nd + 1 ->
  let c := shortestFrom fuel k nd x in
  (c = x \/ roundToDouble c = x) /\ 10 ^ (nd - 1) <= c <= 10 ^ nd.
Proof.
  pose proof (digits_length_bounds x Hx) as B. fold nd in B.
  induction fuel as [|fuel IH]; intros k Hk Hf; cbn zeta.
  - simpl. split; [left; reflexivity | lia].
  - cbn [shortestFrom]. cbn zeta.
    set (p := 10 ^ (nd - k)). set (lo := x `div` p * p). set (hi := lo + p).
    assert (Hp : 0 < p) by (apply Z.pow_pos_nonneg; lia).
    assert (HK : 0 < 10 ^ (k - 1)) by (apply Z.pow_pos_nonneg; lia).
    assert (E1 : 10 ^ (nd - 1) = p * 10 ^ (k - 1)).
    { unfold p. rewrite <- Z.pow_add_r by lia. f_equal. lia. }
    assert (E2 : 10 ^ nd = p * (10 * 10 ^ (k - 1))).
    { unfold p. rewrite <- Z.pow_succ_r, <- Z.pow_add_r by lia. f_equal. lia. }
    assert (L1 : 10 ^ (k - 1) <= x `div` p) by (apply Z.div_le_lower_bound; lia).
    assert (L2 : x `div` p < 10 * 10 ^ (k - 1)) by (apply Z.div_lt_upper_bound; lia).
    assert (Hlo : 10 ^ (nd - 1) <= lo <= 10 ^ nd) by (unfold lo; nia).
    assert (Hhi : 10 ^ (nd - 1) <= hi <= 10 ^ nd) by (unfold hi, lo; nia).
    destruct (roundToDouble lo =? x) eqn:Elo; destruct (roundToDouble hi =? x) eqn:Ehi;
      cbn [andb];
      try apply Z.eqb_eq in Elo; try apply Z.eqb_eq in Ehi.
    + repeat match goal with |- context [if ?b then _ else _] => destruct b end;
        (split; [right; assumption | assumption]).
    + split; [right; assumption | assumption].
    + split; [right; assumption | assumption].
    + apply IH; lia.
Qed.

Lemma shortest_spec :
  (shortest x = x \/ roundToDouble (shortest x) = x)
  /\ 10 ^ (nd - 1) <= shortest x <= 10 ^ nd.
Proof.
  unfold shortest. apply (shortestFrom_spec (length (digits x)) 1); [lia|].
  fold nd. lia.
Qed.
End Shortest.

Lemma digits_length_small n : 0 <= n -> n < 10 ^ 21 ->
  (Z.of_nat (length (digits n)) <=? 21) = true.
Proof.
  intros H0 H. apply Z.leb_le.
  destruct (Z.eq_dec n 0) as [->|Hn]; [vm_compute; discriminate|].
  pose proof (digits_length_bounds n ltac:(lia)) as [B _].
  destruct (Z_le_gt_dec (Z.of_nat (length (digits n))) 21) as [|G]; [assumption|].
  assert (10 ^ 21 <= 10 ^ (Z.of_nat (length (digits n)) - 1))
    by (apply Z.pow_le_mono_r; lia).
  lia.
Qed.

Lemma digits_length_large n : 10 ^ 21 <= n ->
  (Z.of_nat (length (digits n)) <=? 21) = false.
Proof.
  intros H. apply Z.leb_gt.
  pose proof (digits_length_bounds n ltac:(lia)) as [_ B].
  destruct (Z_le_gt_dec (Z.of_nat (length (digits n))) 21) as [L|G]; [|lia].
  assert (10 ^ Z.of_nat (length (digits n)) <= 10 ^ 21)
    by (apply Z.pow_le_mono_r; lia).
  lia.
Qed.

Lemma shortest_small x : 0 < x -> x < 10 ^ 21 -> roundToDouble x = x ->
  roundToDouble (shortest x) = x /\ 0 < shortest x < 10 ^ 21.
Proof.
  intros H0 H Hd. destruct (shortest_spec x H0) as [Hc [Hl Hu]].
  assert (Hr : roundToDouble (shortest x) = x) by (destruct Hc as [->|]; assumption).
  split; [assumption|].
  assert (Z.of_nat (length (digits x)) <= 21)
    by (apply Z.leb_le, digits_length_small; lia).
  assert (0 < 10 ^ (Z.of_nat (length (digits x)) - 1)).
  { apply Z.pow_pos_nonneg; [lia|].
    destruct (digits_spec x ltac:(lia)) as (d & ds & -> & _). simpl; lia. }
  assert (10 ^ Z.of_nat (length (digits x)) <= 10 ^ 21)
    by (apply Z.pow_le_mono_r; lia).
  split; [lia|].
  destruct (Z.eq_dec (shortest x) (10 ^ 21)) as [E|]; [|lia].
  rewrite E in Hr. vm_compute in Hr. lia.
Qed.

Lemma shortest_large x : 10 ^ 21 <= x -> 10 ^ 21 <= shortest x.
Proof.
  intros H. destruct (shortest_spec x ltac:(lia)) as [_ [Hl _]].
  pose proof (digits_length_large x H) as G. apply Z.leb_gt in G.
  assert (10 ^ 21 <= 10 ^ (Z.of_nat (length (digits x)) - 1))
    by (apply Z.pow_le_mono_r; lia).
  lia.
Qed.

Lemma parseInt_unsigned d ds rest :
  Forall isDigit (d :: ds) -> takeDigits rest = [] ->
  parseInt (showDigits (d :: ds) +:+ rest)
  = Some (roundToDouble (digitsValue (d :: ds))).
Proof.
  intros Hall Hrest. pose proof (Forall_inv Hall) as Hd.
  pose proof (takeDigits_show (d :: ds) rest Hall) as E.
  rewrite Hrest, app_nil_r in E.
  change (showDigits (d :: ds) +:+ rest)
    with (String (digitChar d) (showDigits ds +:+ rest)) in *.
  unfold parseInt. cbn [trimStart]. rewrite (digitChar_not_space d Hd).
  destruct (digitChar_not_sign d Hd) as [-> ->]. cbn [orb].
  rewrite E. f_equal; try lia.
Qed.

Lemma parseInt_negative d ds rest :
  Forall isDigit (d :: ds) -> takeDigits rest = [] ->
  parseInt (String "-" (showDigits (d :: ds) +:+ rest))
  = Some (- roundToDouble (digitsValue (d :: ds))).
Proof.
  intros Hall Hrest.
  pose proof (takeDigits_show (d :: ds) rest Hall) as E.
  rewrite Hrest, app_nil_r in E.
  unfold parseInt. cbn [trimStart]. change (isWhiteSpace "-") with false. cbv iota.
  change (Ascii.eqb "-" "-") with true. cbn [orb]. cbv iota.
  rewrite E. f_equal; try lia.
Qed.

Lemma roundToDouble_small n : 0 <= n < 2 ^ 53 -> roundToDouble n = n.
Proof.
  intros [H0 H]. unfold roundToDouble.
  destruct (Z.eq_dec n 0) as [->|Hn]; [reflexivity|].
  assert (Z.log2 n < 53) by (apply Z.log2_lt_pow2; lia).
  destruct (Z.log2 n - 52 <=? 0) eqn:E; [reflexivity|]. apply Z.leb_gt in E. lia.
Qed.

(** Every integer below [2^53] in absolute value is a number; file sizes
    are. *)
Lemma isDouble_safe x : Z.abs x < 2 ^ 53 -> isDouble x.
Proof.
  intros H. split.
  - apply roundToDouble_small. lia.
  - eapply Z.lt_trans; [exact H|]. reflexivity.
Qed.

Lemma parsedBytes_small x : isDouble x -> Z.abs x < 10 ^ 21 -> parsedBytes x = x.
Proof.
  intros [Hd _] Hx. unfold parsedBytes, toString.
  destruct (Z.eq_dec x 0) as [->|Hn]; [reflexivity|].
  destruct (shortest_small (Z.abs x) ltac:(lia) Hx Hd) as [Hr [Hc0 Hc]].
  rewrite (digits_length_small (shortest (Z.abs x))) by lia.
  destruct (digits_spec (shortest (Z.abs x)) ltac:(lia)) as (d & ds & E & Hall & Hv & _).
  rewrite E.
  destruct (x <? 0) eqn:Es.
  - apply Z.ltb_lt in Es.
    change ("-" +:+ showDigits (d :: ds)) with (String "-" (showDigits (d :: ds))).
    rewrite <- (append_empty_r (showDigits (d :: ds))).
    rewrite parseInt_negative by (assumption || reflexivity).
    rewrite Hv, Hr. cbn [orZero].
    destruct (- Z.abs x =? 0) eqn:E0; [apply Z.eqb_eq in E0|]; lia.
  - apply Z.ltb_ge in Es.
    change ("" +:+ showDigits (d :: ds)) with (showDigits (d :: ds)).
    rewrite <- (append_empty_r (showDigits (d :: ds))).
    rewrite parseInt_unsigned by (assumption || reflexivity).
    rewrite Hv, Hr. cbn [orZero].
    destruct (Z.abs x =? 0) eqn:E0; [apply Z.eqb_eq in E0|]; lia.
Qed.

Lemma dropZeros_snoc ds d : d <> 0 -> dropZeros (ds ++ [d]) = dropZeros ds ++ [d].
Proof.
  intros Hd. induction ds as [|a ds IH]; simpl.
  - destruct d; try reflexivity. congruence.
  - destruct a; try reflexivity. exact IH.
Qed.

Lemma stripTrailingZeros_head d ds : d <> 0 ->
  stripTrailingZeros (d :: ds) = d :: stripTrailingZeros ds.
Proof.
  intros Hd. unfold stripTrailingZeros. cbn [rev].
  rewrite dropZeros_snoc by assumption. rewrite rev_app_distr. reflexivity.
Qed.

(** From [10^21] on the printed form is [d.ddd...e+NN] and [parseInt] stops
    after the first digit. *)
Lemma parsedBytes_large x : 10 ^ 21 <= Z.abs x ->
  exists d, 1 <= d <= 9 /\ parsedBytes x = Z.sgn x * d.
Proof.
  intros Hx. unfold parsedBytes, toString.
  pose proof (shortest_large (Z.abs x) Hx) as Hc.
  rewrite (digits_length_large (shortest (Z.abs x))) by assumption.
  destruct (digits_spec (shortest (Z.abs x)) ltac:(lia)) as (d & ds & E & Hall & Hv & Hpos).
  specialize (Hpos ltac:(lia)). rewrite E.
  pose proof (Forall_inv Hall) as Hd. unfold isDigit in Hd.
  rewrite stripTrailingZeros_head by lia.
  exists d. split; [lia|].
  set (e := "e+" +:+ decimal (Z.of_nat (length (d :: ds)) - 1)).
  assert (Hone : Forall isDigit [d]) by (constructor; [exact Hd | constructor]).
  assert (Hval : roundToDouble (digitsValue [d]) = d).
  { unfold digitsValue; cbn [fold_left]. apply roundToDouble_small. lia. }
  assert (Hdot : forall s, takeDigits ("." +:+ s) = []) by reflexivity.
  assert (He : takeDigits e = []) by reflexivity.
  destruct (x <? 0) eqn:Es; [apply Z.ltb_lt in Es | apply Z.ltb_ge in Es].
  - replace (Z.sgn x) with (-1) by lia.
    destruct (stripTrailingZeros ds) as [|d' rest].
    + change ("-" +:+ showDigits [d] +:+ e) with (String "-" (showDigits [d] +:+ e)).
      rewrite parseInt_negative, Hval by assumption. cbn [orZero].
      destruct (- d =? 0) eqn:E0; [apply Z.eqb_eq in E0|]; lia.
    + change ("-" +:+ showDigits [d] +:+ "." +:+ showDigits (d' :: rest) +:+ e)
        with (String "-" (showDigits [d] +:+ ("." +:+ showDigits (d' :: rest) +:+ e))).
      rewrite parseInt_negative, Hval by (assumption || apply Hdot). cbn [orZero].
      destruct (- d =? 0) eqn:E0; [apply Z.eqb_eq in E0|]; lia.
  - replace (Z.sgn x) with 1 by lia.
    destruct (stripTrailingZeros ds) as [|d' rest].
    + change ("" +:+ showDigits [d] +:+ e) with (showDigits [d] +:+ e).
      rewrite parseInt_unsigned, Hval by assumption. cbn [orZero].
      destruct (d =? 0) eqn:E0; [apply Z.eqb_eq in E0|]; lia.
    + change ("" +:+ showDigits [d] +:+ "." +:+ showDigits (d' :: rest) +:+ e)
        with (showDigits [d] +:+ ("." +:+ showDigits (d' :: rest) +:+ e)).
      rewrite parseInt_unsigned, Hval by (assumption || apply Hdot). cbn [orZero].
      destruct (d =? 0) eqn:E0; [apply Z.eqb_eq in E0|]; lia.
Qed.

End JSFacts.

(** * Facts about [humanReadableSize] *)
Import JS JSFacts.

Lemma toFixed_compat v v' f : v == v' -> toFixed v f = toFixed v' f.
Proof.
  intros H. unfold toFixed.
  assert (E1 : Qltb v 0 = Qltb v' 0) by (unfold Qltb; rewrite H; reflexivity).
  assert (E2 : Qle_bool (inject_Z (10 ^ 21)) (Qabs v)
               = Qle_bool (inject_Z (10 ^ 21)) (Qabs v')) by (rewrite H; reflexivity).
  assert (E3 : Qfloor (Qabs v) = Qfloor (Qabs v')) by (rewrite H; reflexivity).
  assert (E4 : Qfloor (Qabs v * inject_Z (10 ^ Z.of_nat f) + (1 # 2))
               = Qfloor (Qabs v' * inject_Z (10 ^ Z.of_nat f) + (1 # 2)))
    by (rewrite H; reflexivity).
  rewrite E1, E2, E3, E4. reflexivity.
Qed.

Lemma pow1024_pos k : 0 <= k -> 0 < 1024 ^ k.
Proof. intros. apply Z.pow_pos_nonneg; lia. Qed.

Lemma dividedValue_0 n : dividedValue n 0 == inject_Z n.
Proof. unfold dividedValue. change (1024 ^ 0) with 1. field. Qed.

Lemma dividedValue_succ n k : 0 <= k ->
  dividedValue n (k + 1) == dividedValue n k / 1024.
Proof.
  intros Hk. unfold dividedValue.
  rewrite Z.pow_add_r, inject_Z_mult by lia. change (1024 ^ 1) with 1024.
  pose proof (pow1024_pos k Hk) as Hp.
  assert (~ inject_Z (1024 ^ k) == 0).
  { intros E. unfold Qeq in E. cbn [Qnum Qden inject_Z] in E. lia. }
  change (inject_Z 1024) with 1024%Q. field. assumption.
Qed.

Lemma dividedValue_floor n k : 0 <= k ->
  Qfloor (dividedValue n k) = n `div` 1024 ^ k.
Proof. intros. unfold dividedValue. symmetry. apply Zdiv_Qdiv. Qed.

Lemma dividedValue_nonneg n k : 0 <= n -> 0 <= k -> (0 <= dividedValue n k)%Q.
Proof.
  intros Hn Hk. unfold dividedValue. pose proof (pow1024_pos k Hk).
  apply Qle_shift_div_l.
  - change 0%Q with (inject_Z 0). rewrite <- Zlt_Qlt. assumption.
  - rewrite Qmult_0_l. change 0%Q with (inject_Z 0). rewrite <- Zle_Qle. assumption.
Qed.

Lemma log2_div1024 a : 1024 <= a -> Z.log2 (a `div` 1024) < Z.log2 a.
Proof.
  intros Ha. replace (a `div` 1024) with (Z.shiftr a 10)
    by (rewrite Z.shiftr_div_pow2 by lia; reflexivity).
  rewrite Z.log2_shiftr by lia.
  assert (10 <= Z.log2 a) by (apply (Z.log2_le_pow2 a 10); lia). lia.
Qed.

Lemma divideLoop_spec n0 : 0 <= n0 -> forall fuel j q,
  0 <= j -> q == dividedValue n0 j ->
  (forall i, 0 <= i < j -> (1024 <= dividedValue n0 i)%Q) ->
  Z.log2 (n0 `div` 1024 ^ j) < Z.of_nat fuel ->
  exists k v, divideLoop fuel q j = (v, k) /\ v == dividedValue n0 k /\ stopsAt n0 k.
Proof.
  intros Hn0. induction fuel as [|fuel IH]; intros j q Hj Hq Hprev Hfuel.
  - pose proof (Z.log2_nonneg (n0 `div` 1024 ^ j)). lia.
  - cbn [divideLoop]. destruct (Qle_bool 1024 q) eqn:E.
    + apply Qle_bool_iff in E. cbn zeta.
      destruct (j + 1 =? 0) eqn:E0; [apply Z.eqb_eq in E0; lia|].
      assert (Hge : 1024 <= n0 `div` 1024 ^ j).
      { rewrite <- dividedValue_floor by assumption.
        change 1024 with (Qfloor 1024). apply Qfloor_resp_le. rewrite <- Hq. exact E. }
      apply IH.
      * lia.
      * rewrite dividedValue_succ, Hq by assumption. reflexivity.
      * intros i Hi. destruct (Z.eq_dec i j) as [->|]; [rewrite <- Hq; exact E|].
        apply Hprev. lia.
      * rewrite Z.pow_add_r by lia. change (1024 ^ 1) with 1024.
        rewrite <- Z.div_div by (pose proof (pow1024_pos j Hj); lia).
        pose proof (log2_div1024 _ Hge). lia.
    + exists j, q. split; [reflexivity|]. split; [assumption|].
      split; [assumption|]. split; [|assumption].
      rewrite <- Hq. apply Qnot_le_lt. intros C. apply Qle_bool_iff in C. congruence.
Qed.

Lemma stopsAt_unique n k k' : stopsAt n k -> stopsAt n k' -> k = k'.
Proof.
  intros (H0 & Hlt & Hmin) (H0' & Hlt' & Hmin').
  destruct (Z.lt_trichotomy k k') as [L|[E|G]]; [|assumption|].
  - specialize (Hmin' k ltac:(lia)). lra.
  - specialize (Hmin k' ltac:(lia)). lra.
Qed.

Lemma stopsAt_below n m k : 0 <= m -> n < 1024 ^ (m + 1) -> stopsAt n k -> k <= m.
Proof.
  intros Hm Hn (H0 & Hlt & Hmin).
  destruct (Z_le_gt_dec k m) as [|G]; [assumption|].
  specialize (Hmin m ltac:(lia)). exfalso.
  assert (Hc : (dividedValue n m < 1024)%Q).
  { unfold dividedValue. pose proof (pow1024_pos m Hm).
    apply Qlt_shift_div_r.
    - change 0%Q with (inject_Z 0). rewrite <- Zlt_Qlt. assumption.
    - change 1024%Q with (inject_Z 1024). rewrite <- inject_Z_mult, <- Zlt_Qlt.
      rewrite Z.pow_add_r in Hn by lia. change (1024 ^ 1) with 1024 in Hn. lia. }
  lra.
Qed.

Lemma Qfloor_unique x z :
  (inject_Z z <= x)%Q -> (x < inject_Z (z + 1))%Q -> Qfloor x = z.
Proof.
  intros Hl Hu.
  assert (z <= Qfloor x).
  { rewrite <- (Qfloor_Z z). apply Qfloor_resp_le. assumption. }
  assert (Qfloor x < z + 1).
  { rewrite Zlt_Qlt. eapply Qle_lt_trans; [apply Qfloor_le | exact Hu]. }
  lia.
Qed.

Lemma digitsFrom_fuel f1 : forall f2 n, 0 <= n ->
  Z.log2 n < Z.of_nat f1 -> Z.log2 n < Z.of_nat f2 ->
  digitsFrom f1 n [] = digitsFrom f2 n [].
Proof.
  induction f1 as [|f1 IH]; intros f2 n Hn H1 H2.
  - pose proof (Z.log2_nonneg n). lia.
  - destruct f2 as [|f2]; [pose proof (Z.log2_nonneg n); lia|].
    cbn [digitsFrom]. destruct (n <? 10) eqn:E; [reflexivity|].
    apply Z.ltb_ge in E. pose proof (log2_div10 n E).
    rewrite (digitsFrom_app f1), (digitsFrom_app f2). f_equal.
    apply IH; [apply Z.div_pos; lia | lia | lia].
Qed.

Lemma digits_small r : 0 <= r < 10 -> digits r = [r].
Proof.
  intros [H0 H]. unfold digits. cbn [digitsFrom].
  destruct (r <? 10) eqn:E; [reflexivity|]. apply Z.ltb_ge in E. lia.
Qed.

Lemma digits_step r : 10 <= r -> digits r = digits (r `div` 10) ++ [r `mod` 10].
Proof.
  intros Hr. unfold digits at 1. cbn [digitsFrom].
  destruct (r <? 10) eqn:E; [apply Z.ltb_lt in E; lia|].
  rewrite digitsFrom_app. f_equal. pose proof (log2_div10 r Hr).
  pose proof (Z.log2_nonneg (r `div` 10)).
  apply digitsFrom_fuel; [apply Z.div_pos; lia | lia | lia].
Qed.

Section ToFixed.
Variable v : Q.
Hypothesis Hv0 : (0 <= v)%Q.
Hypothesis Hv : (v < inject_Z (10 ^ 21))%Q.

Lemma toFixed_head f :
  toFixed v f =
  let n := Qfloor (v * inject_Z (10 ^ Z.of_nat f) + (1 # 2)) in
  match f with
  | O => showDigits (digits n)
  | _ =>
      let m := padZeros (S f) (digits n) in
      showDigits (take (length m - f) m) +:+ "." +:+ showDigits (drop (length m - f) m)
  end.
Proof.
  unfold toFixed.
  assert (E1 : Qltb v 0 = false).
  { unfold Qltb. apply negb_false_iff, Qle_bool_iff. assumption. }
  assert (E2 : Qle_bool (inject_Z (10 ^ 21)) (Qabs v) = false).
  { rewrite (Qabs_pos v Hv0). destruct (Qle_bool _ v) eqn:E; [|reflexivity].
    apply Qle_bool_iff in E. lra. }
  assert (E3 : Qfloor (Qabs v * inject_Z (10 ^ Z.of_nat f) + (1 # 2))
               = Qfloor (v * inject_Z (10 ^ Z.of_nat f) + (1 # 2)))
    by (rewrite (Qabs_pos v Hv0); reflexivity).
  rewrite E1, E2, E3. cbn zeta. destruct f; reflexivity.
Qed.

Lemma toFixed_0 : toFixed v 0 = decimal (nearest v).
Proof.
  rewrite toFixed_head. cbn zeta. unfold decimal, nearest. do 2 f_equal.
  apply Qfloor_comp. change (inject_Z (10 ^ Z.of_nat 0)) with 1%Q. ring.
Qed.

Lemma nearest_nonneg c : (0 <= c)%Q -> 0 <= nearest (v * c).
Proof.
  intros Hc. unfold nearest. change 0 with (Qfloor 0). apply Qfloor_resp_le.
  assert (0 <= v * c)%Q by (apply Qmult_le_0_compat; assumption). lra.
Qed.

Lemma toFixed_1 :
  toFixed v 1 =
  let r := nearest (v * 10) in
  decimal (r `div` 10) +:+ "." +:+ decimal (r `mod` 10).
Proof.
  rewrite toFixed_head. cbn zeta.
  change (inject_Z (10 ^ Z.of_nat 1)) with 10%Q. fold (nearest (v * 10)).
  pose proof (nearest_nonneg 10 ltac:(lra)) as Hr.
  set (r := nearest (v * 10)) in *. unfold decimal.
  pose proof (Z.mod_pos_bound r 10 ltac:(lia)) as Hm.
  rewrite (digits_small (r `mod` 10)) by lia.
  destruct (Z_lt_ge_dec r 10) as [L|G].
  - rewrite (digits_small r) by lia.
    rewrite Z.div_small, Z.mod_small by lia. reflexivity.
  - rewrite (digits_step r) by lia.
    destruct (digits_spec (r `div` 10)) as (d & ds & E & _).
    { apply Z.div_pos; lia. }
    rewrite E. unfold padZeros. set (m := r `mod` 10).
    replace (2 - length ((d :: ds) ++ [m]))%nat with 0%nat
      by (rewrite length_app; simpl; lia).
    cbn [repeat app]. change (d :: ds ++ [m]) with ((d :: ds) ++ [m]).
    replace (length ((d :: ds) ++ [m]) - 1)%nat with (length (d :: ds))
      by (rewrite length_app; simpl; lia).
    rewrite take_app_length, drop_app_length. reflexivity.
Qed.
End ToFixed.

Lemma parsedBytes_range bytes : 0 <= bytes -> isDouble bytes ->
  0 <= parsedBytes bytes < 10 ^ 21
  /\ (bytes < 10 ^ 21 -> parsedBytes bytes = bytes)
  /\ (10 ^ 21 <= bytes -> 1 <= parsedBytes bytes <= 9).
Proof.
  intros H0 Hd. destruct (Z_lt_ge_dec bytes (10 ^ 21)) as [L|G].
  - rewrite parsedBytes_small by (assumption || lia). lia.
  - destruct (parsedBytes_large bytes ltac:(lia)) as (d & Hdig & ->).
    replace (Z.sgn bytes) with 1 by lia. lia.
Qed.

(** The loop always leaves through its condition: the fuel of the model
    is never what stops it. *)
Lemma humanReadableSize_unfold bytes : 0 <= parsedBytes bytes ->
  exists k v, stopsAt (parsedBytes bytes) k
    /\ v == dividedValue (parsedBytes bytes) k
    /\ divideLoop (loopFuel (parsedBytes bytes)) (inject_Z (parsedBytes bytes)) 0 = (v, k)
    /\ humanReadableSize bytes
       = toFixed v (if Qltb v 10 && (0 <? k) then 1 else 0) +:+ " " +:+ unitAt k.
Proof.
  intros Hn. unfold humanReadableSize. fold (parsedBytes bytes).
  set (n := parsedBytes bytes) in *.
  destruct (divideLoop_spec n Hn (loopFuel n) 0 (inject_Z n)) as (k & v & E & Hv & Hs).
  - lia.
  - symmetry. apply dividedValue_0.
  - intros i Hi. lia.
  - change (1024 ^ 0) with 1. rewrite Z.div_1_r. unfold loopFuel.
    pose proof (Z.log2_nonneg n). lia.
  - exists k, v. rewrite E. repeat split; try assumption; apply Hs.
Qed.


(** * Facts about the pipeline *)

Lemma bind_Ok_inv {A B : Type} (m : M A) (k : A -> M B) w b w' :
  bind m k w = (Ok b, w') -> exists a w1, m w = (Ok a, w1) /\ k a w1 = (Ok b, w').
Proof.
  unfold bind. destruct (m w) as [[a|e] w1]; intros H; [|discriminate].
  exists a, w1. split; [reflexivity | exact H].
Qed.

Lemma statSync_size_Ok p w sz w' :
  statSync_size p w = (Ok sz, w') -> w' = w /\ disk w !! p = Some sz.
Proof.
  unfold statSync_size. destruct (disk w !! p) as [s|]; intros H; [|discriminate].
  injection H as -> ->. split; reflexivity.
Qed.

Lemma objSet_fresh {V : Type} (o : list (string * V)) key v :
  ~ In key (objKeys o) -> objSet o key v = o ++ [(key, v)].
Proof.
  induction o as [|[k v'] o IH]; intros Hn; [reflexivity|].
  cbn [objSet]. destruct (String.eqb k key) eqn:E.
  - apply String.eqb_eq in E. exfalso. apply Hn. left. exact E.
  - cbn [app]. f_equal. apply IH. intros Hin. apply Hn. right. exact Hin.
Qed.

Section PipelineFacts.
Variable codec : gmap string Z -> string -> string -> Z -> Z -> gmap string Z * option string.

Lemma resizeImage_spec i o wd h w :
  exists w1 ev,
    resizeImage codec i o wd h w = (Ok tt, w1)
    /\ resizeLog w1 = resizeLog w ++ [ev] /\ disk w1 = diskAfter ev
    /\ inputPath ev = i /\ outputPath ev = o /\ reqWidth ev = wd /\ reqHeight ev = h
    /\ (diskAfter ev, failure ev) = codec (disk w) i o wd h.
Proof.
  unfold resizeImage, bind, sharp.
  destruct (codec (disk w) i o wd h) as [d [msg|]]; cbn;
    eexists; eexists; repeat split.
Qed.

Variable this : ImageProcessor.
Variables imagePath originalFilename : string.

Lemma forKeys_Ok keys : forall result w r w',
  NoDup (objKeys result ++ keys) ->
  forKeys codec this imagePath originalFilename keys result w = (Ok r, w') ->
  exists tes : list (Thumbnail * ResizeEvent),
    r = result ++ zip keys (map fst tes)
    /\ resizeLog w' = resizeLog w ++ map snd tes
    /\ Forall2 (fun key te => recorded this imagePath originalFilename key te.1 te.2)
         keys tes.
Proof.
  induction keys as [|key keys IH]; intros result w r w' Hnd H.
  - cbn in H. injection H as <- <-. exists []. cbn. rewrite !app_nil_r.
    repeat split. constructor.
  - cbn [forKeys] in H.
    apply bind_Ok_inv in H as (out & w1 & Hout & H).
    unfold outputPathFor in Hout.
    destruct (objGet (filePaths this) key) as [dir|] eqn:Edir; [|discriminate].
    injection Hout as <- <-.
    apply bind_Ok_inv in H as (dims & w1 & Hdims & H).
    destruct (objGet mappings key) as [dims'|] eqn:Edims; [|discriminate].
    injection Hdims as <- <-.
    apply bind_Ok_inv in H as ([] & w1 & Hres & H).
    destruct (resizeImage_spec imagePath (Path.join [dir; originalFilename])
                (width dims') (height dims') w)
      as (w1' & ev & Hres' & Hlog & Hdisk & Hi & Ho & Hw & Hh & _).
    rewrite Hres' in Hres. injection Hres as <-.
    apply bind_Ok_inv in H as (osz & w2 & Hos & H).
    apply statSync_size_Ok in Hos as [-> Hos].
    apply bind_Ok_inv in H as (sz & w2 & Hs & H).
    apply statSync_size_Ok in Hs as [-> Hs].
    rewrite objSet_fresh in H.
    2:{ intros Hin. apply NoDup_app in Hnd as (_ & Hdis & _).
        apply (Hdis key); [apply list_elem_of_In; exact Hin | left]. }
    apply IH in H as (tes & Hr & Hl & Hall).
    2:{ unfold objKeys in *. rewrite map_app. cbn [map fst].
        rewrite <- app_assoc. exact Hnd. }
    set (t := {| path := Path.join [dir; originalFilename];
                 size := humanReadableSize sz;
                 originalSize := humanReadableSize osz |}) in *.
    exists ((t, ev) :: tes). cbn [map fst snd zip zip_with].
    split; [rewrite Hr, <- app_assoc; reflexivity|].
    split; [rewrite Hl, Hlog, <- app_assoc; reflexivity|].
    constructor; [|exact Hall].
    exists dir, dims'. cbn [fst snd]. rewrite <- Hdisk.
    repeat split; try assumption; try reflexivity; eexists; split; eauto.
Qed.
End PipelineFacts.

Section PipelineRuns.
Variable codec : gmap string Z -> string -> string -> Z -> Z -> gmap string Z * option string.
Variable this : ImageProcessor.
Variables imagePath originalFilename : string.

(** One turn of the loop, stage by stage. *)
Lemma forKeys_step key keys result w :
  forKeys codec this imagePath originalFilename (key :: keys) result w =
  match objGet (filePaths this) key with
  | None =>
      (Throw "The 'path' argument must be of type string. Received undefined", w)
  | Some dir =>
      let out := Path.join [dir; originalFilename] in
      match objGet mappings key with
      | None => (Throw "Cannot read properties of undefined", w)
      | Some dims =>
          let w1 := (resizeImage codec imagePath out (width dims) (height dims) w).2 in
          match statSync_size imagePath w1 with
          | (Throw e, _) => (Throw e, w1)
          | (Ok osz, _) =>
              match statSync_size out w1 with
              | (Throw e, _) => (Throw e, w1)
              | (Ok sz, _) =>
                  forKeys codec this imagePath originalFilename keys
                    (objSet result key
                       {| path := out; size := humanReadableSize sz;
                          originalSize := humanReadableSize osz |}) w1
              end
          end
      end
  end.
Proof.
  cbn [forKeys]. unfold bind at 1. unfold outputPathFor.
  destruct (objGet (filePaths this) key) as [dir|]; [|reflexivity].
  cbn [ret]. unfold bind at 1.
  destruct (objGet mappings key) as [dims|]; [|reflexivity].
  cbn [ret]. unfold bind at 1. cbn zeta.
  destruct (resizeImage_spec codec imagePath (Path.join [dir; originalFilename])
              (width dims) (height dims) w) as (w1 & ev & -> & _).
  cbn [snd]. unfold bind at 1. unfold statSync_size at 1 3.
  destruct (disk w1 !! imagePath) as [osz|]; [|reflexivity].
  unfold bind at 1. unfold statSync_size at 1 2.
  destruct (disk w1 !! Path.join [dir; originalFilename]) as [sz|]; reflexivity.
Qed.


Hypothesis Hvalid : validImage codec imagePath.

Lemma forKeys_total keys : forall result w,
  Forall (fun key => is_Some (objGet (filePaths this) key)
                     /\ is_Some (objGet mappings key)) keys ->
  is_Some (disk w !! imagePath) ->
  exists r w', forKeys codec this imagePath originalFilename keys result w = (Ok r, w').
Proof.
  induction keys as [|key keys IH]; intros result w Hkeys Himg.
  - eexists; eexists; reflexivity.
  - pose proof (Forall_inv Hkeys) as [[dir Edir] [dims Edims]].
    pose proof (Forall_inv_tail Hkeys) as Hrest.
    rewrite forKeys_step, Edir, Edims. cbn zeta.
    destruct (resizeImage_spec codec imagePath (Path.join [dir; originalFilename])
                (width dims) (height dims) w)
      as (w1 & ev & -> & Hlog & Hdisk & Hi & Ho & Hw & Hh & Hcodec).
    cbn [snd].
    destruct (Hvalid (disk w) (Path.join [dir; originalFilename]) (width dims)
                (height dims) Himg) as [[osz Hosz] [sz Hsz]].
    rewrite <- Hcodec in Hosz, Hsz. cbn [fst] in Hosz, Hsz. rewrite <- Hdisk in Hosz, Hsz.
    unfold statSync_size. rewrite Hosz, Hsz.
    apply IH; [exact Hrest|]. exists osz. exact Hosz.
Qed.
End PipelineRuns.

(** * Facts about [path.join] *)

Lemma str_app_cons c a b : String c a +:+ b = String c (a +:+ b).
Proof. reflexivity. Qed.

Lemma str_app_nil b : "" +:+ b = b.
Proof. reflexivity. Qed.

Lemma str_app_assoc a b c : (a +:+ b) +:+ c = a +:+ (b +:+ c).
Proof.
  induction a as [|x a IH]; [reflexivity|].
  rewrite !str_app_cons, IH. reflexivity.
Qed.

Lemma str_app_length a b : String.length (a +:+ b) = (String.length a + String.length b)%nat.
Proof.
  induction a as [|x a IH]; [reflexivity|].
  rewrite str_app_cons. cbn [String.length]. rewrite IH. reflexivity.
Qed.

Lemma str_app_cancel_r a : forall b c, a +:+ c = b +:+ c -> a = b.
Proof.
  induction a as [|x a IH]; intros [|y b] c H.
  - reflexivity.
  - exfalso. apply (f_equal String.length) in H.
    rewrite str_app_nil, str_app_length in H. cbn [String.length] in H. lia.
  - exfalso. apply (f_equal String.length) in H.
    rewrite str_app_nil, str_app_length in H. cbn [String.length] in H. lia.
  - rewrite !str_app_cons in H. injection H as -> H. f_equal. eapply IH. exact H.
Qed.

Module PathFacts.
Import Path.

Lemma split_nonempty s : exists seg segs, split s = seg :: segs.
Proof.
  induction s as [|c s (seg & segs & E)]; cbn [split].
  - eexists; eexists; reflexivity.
  - destruct (Ascii.eqb c "/"); [eexists; eexists; reflexivity|].
    rewrite E. eexists; eexists; reflexivity.
Qed.

Lemma split_noSlash f : noSlash f = true -> split f = [f].
Proof.
  induction f as [|c f IH]; intros H; [reflexivity|].
  cbn [noSlash] in H. apply andb_true_iff in H as [Hc Hf]. cbn [split].
  apply negb_true_iff in Hc. rewrite Hc, (IH Hf). reflexivity.
Qed.

Lemma split_app d f : noSlash f = true -> split (d +:+ "/" +:+ f) = split d ++ [f].
Proof.
  intros Hf. induction d as [|c d IH].
  - rewrite str_app_nil. change ("/" +:+ f) with (String "/" f). cbn [split].
    change (Ascii.eqb "/" "/") with true. cbv iota. rewrite (split_noSlash f Hf). reflexivity.
  - rewrite str_app_cons. cbn [split]. rewrite IH.
    destruct (Ascii.eqb c "/"); [reflexivity|].
    destruct (split_nonempty d) as (seg & segs & ->). reflexivity.
Qed.

Lemma endsWithSlash_app a f : f <> "" -> endsWithSlash (a +:+ f) = endsWithSlash f.
Proof.
  intros Hf. induction a as [|c a IH]; [reflexivity|].
  rewrite str_app_cons. cbn [endsWithSlash].
  destruct (a +:+ f) eqn:E; [|exact IH].
  destruct a; [rewrite str_app_nil in E; contradiction | discriminate].
Qed.

Lemma endsWithSlash_noSlash f : noSlash f = true -> endsWithSlash f = false.
Proof.
  induction f as [|c f IH]; intros H; [reflexivity|].
  cbn [noSlash] in H. apply andb_true_iff in H as [Hc Hf]. cbn [endsWithSlash].
  destruct f; [apply negb_true_iff in Hc; exact Hc | apply IH; exact Hf].
Qed.


Lemma isAbsolute_app d s : d <> "" -> isAbsolute (d +:+ s) = isAbsolute d.
Proof. destruct d; [contradiction | reflexivity]. Qed.

Lemma plainSegment_spec f : plainSegment f = true ->
  f <> "" /\ String.eqb f "" = false /\ String.eqb f "." = false
  /\ String.eqb f ".." = false /\ noSlash f = true.
Proof.
  unfold plainSegment. rewrite !andb_true_iff, !negb_true_iff.
  intros [[[H1 H2] H3] H4]. repeat split; try assumption.
  apply String.eqb_neq. exact H1.
Qed.

Lemma pushSegment_plain allow res f : plainSegment f = true ->
  pushSegment allow res f = f :: res.
Proof.
  intros H. apply plainSegment_spec in H as (_ & H1 & H2 & H3 & _).
  unfold pushSegment. rewrite H1, H2, H3. reflexivity.
Qed.



End PathFacts.

(** * The claims about [humanReadableSize] *)



(** C4. The four documented values. *)
Theorem humanReadableSize_examples :
  humanReadableSize 0 = "0 B"
  /\ humanReadableSize 1500 = "1.5 KB"
  /\ humanReadableSize 10485760 = "10 MB"
  /\ humanReadableSize 1023 = "1023 B".
Proof. repeat split; vm_compute; reflexivity. Qed.



(** C9, as the code has it. For every negative integer input above
    [-10^21] no division takes place, the input is not coerced to 0, and
    the result is the decimal rendering of the input, without decimal
    places, followed by [" B"]. *)
Theorem humanReadableSize_negative n : - 10 ^ 21 < n < 0 -> isDouble n ->
  parsedBytes n = n
  /\ (forall fuel, divideLoop fuel (inject_Z n) 0 = (inject_Z n, 0))
  /\ humanReadableSize n = "-" +:+ decimal (- n) +:+ " B".
Proof.
  intros Hn Hd.
  assert (Hp : parsedBytes n = n) by (apply parsedBytes_small; [assumption | lia]).
  assert (Hl : forall fuel, divideLoop fuel (inject_Z n) 0 = (inject_Z n, 0)).
  { intros [|fuel]; [reflexivity|]. cbn [divideLoop].
    destruct (Qle_bool 1024 (inject_Z n)) eqn:E; [|reflexivity].
    apply Qle_bool_iff in E. change 1024%Q with (inject_Z 1024) in E.
    rewrite <- Zle_Qle in E. lia. }
  split; [assumption|]. split; [assumption|].
  unfold humanReadableSize. fold (parsedBytes n). rewrite Hp, Hl.
  rewrite andb_false_r. unfold toFixed.
  assert (E1 : Qltb (inject_Z n) 0 = true).
  { unfold Qltb. apply negb_true_iff. destruct (Qle_bool 0 (inject_Z n)) eqn:E; [|reflexivity].
    apply Qle_bool_iff in E. change 0%Q with (inject_Z 0) in E.
    rewrite <- Zle_Qle in E. lia. }
  assert (Ea : Qabs (inject_Z n) = inject_Z (- n)).
  { unfold inject_Z, Qabs. f_equal. lia. }
  rewrite E1, Ea.
  assert (E2 : Qle_bool (inject_Z (10 ^ 21)) (inject_Z (- n)) = false).
  { destruct (Qle_bool _ _) eqn:E; [|reflexivity].
    apply Qle_bool_iff in E. rewrite <- Zle_Qle in E. lia. }
  rewrite E2.
  assert (E3 : Qfloor (inject_Z (- n) * inject_Z (10 ^ Z.of_nat 0) + (1 # 2)) = - n).
  { apply Qfloor_unique.
    - change (inject_Z (10 ^ Z.of_nat 0)) with 1%Q. lra.
    - rewrite inject_Z_plus. change (inject_Z (10 ^ Z.of_nat 0)) with 1%Q.
      change (inject_Z 1) with 1%Q. lra. }
  rewrite E3. reflexivity.
Qed.

Lemma humanReadableSize_negative_witness :
  - 10 ^ 21 < -5 < 0 /\ isDouble (-5)
  /\ parsedBytes (-5) = -5
  /\ (forall fuel, divideLoop fuel (inject_Z (-5)) 0 = (inject_Z (-5), 0))
  /\ humanReadableSize (-5) = "-" +:+ decimal (- -5) +:+ " B".
Proof.
  assert (Hn : - 10 ^ 21 < -5 < 0) by (split; vm_compute; reflexivity).
  assert (Hd : isDouble (-5)) by (split; vm_compute; reflexivity).
  split; [exact Hn|]. split; [exact Hd|].
  exact (humanReadableSize_negative (-5) Hn Hd).
Defined.

(** C9 as stated fails from [-10^21] down: the number prints in exponent
    notation, [parseInt] keeps its sign and first digit, and the result
    is ["-1 B"]. *)
Lemma humanReadableSize_negative_huge :
  - 10 ^ 21 < 0 /\ isDouble (- 10 ^ 21)
  /\ toString (- 10 ^ 21) = "-1e+21"
  /\ parsedBytes (- 10 ^ 21) = -1
  /\ humanReadableSize (- 10 ^ 21) = "-1 B"
  /\ humanReadableSize (- 10 ^ 21) <> "-" +:+ decimal (10 ^ 21) +:+ " B".
Proof.
  split; [vm_compute; reflexivity|]. split; [split; vm_compute; reflexivity|].
  repeat split; try (vm_compute; reflexivity). vm_compute. discriminate.
Qed.

(** * The claims about the pipeline *)

Lemma writingCodec_valid image : validImage writingCodec image.
Proof.
  intros d out w h [sz Hsz]. unfold writingCodec. rewrite Hsz. cbn [fst]. split.
  - destruct (decide (out = image)) as [->|Hne].
    + rewrite lookup_insert_eq. eexists; reflexivity.
    + rewrite lookup_insert_ne by exact Hne. exists sz. exact Hsz.
  - rewrite lookup_insert_eq. eexists; reflexivity.
Qed.


Lemma processImage_Ok codec this imagePath originalFilename w m :
  (processImage codec this imagePath originalFilename w).1 = Ok m ->
  original m = imagePath
  /\ exists tes : list (Thumbnail * ResizeEvent),
      thumbnails m = zip (objKeys mappings) (map fst tes)
      /\ resizeLog (processImage codec this imagePath originalFilename w).2
         = resizeLog w ++ map snd tes
      /\ Forall2 (fun key te => recorded this imagePath originalFilename key te.1 te.2)
           (objKeys mappings) tes.
Proof.
  unfold processImage, bind.
  destruct (forKeys codec this imagePath originalFilename (objKeys mappings) [] w)
    as [[r|e] w'] eqn:E; cbn [ret fst snd]; intros H; [|discriminate].
  injection H as <-. cbn [original thumbnails]. split; [reflexivity|].
  apply forKeys_Ok in E as (tes & Hr & Hl & Hall).
  - exists tes. repeat split; assumption.
  - cbn. apply (bool_decide_unpack _). vm_compute. exact I.
Qed.

(** C1. With a valid input image (and the six variant directories
    configured, as the constructor leaves them) [processImage] returns a
    manifest, and its thumbnails are keyed by exactly the six identifiers
    of the table, in table order, one entry each. *)
Theorem processImage_six_thumbnails codec this imagePath originalFilename w :
  hasVariantDirs this ->
  validImage codec imagePath ->
  is_Some (disk w !! imagePath) ->
  exists m w',
    processImage codec this imagePath originalFilename w = (Ok m, w')
    /\ original m = imagePath
    /\ objKeys (thumbnails m) = objKeys mappings
    /\ objKeys (thumbnails m)
       = ["THUMB_50x50"; "THUMB_150x150"; "THUMB_250x250"; "THUMB_500x500";
          "THUMB_1000x1000"; "THUMB_2000x2000"].
Proof.
  intros Hdirs Hvalid Himg.
  destruct (forKeys_total codec this imagePath originalFilename Hvalid
              (objKeys mappings) [] w) as (r & w' & E).
  - unfold hasVariantDirs in Hdirs. rewrite Forall_forall in Hdirs |- *.
    intros key Hin. split; [apply Hdirs; exact Hin|].
    assert (Hm : Forall (fun key => is_Some (objGet mappings key)) (objKeys mappings)).
    { cbn. repeat constructor; eexists; reflexivity. }
    rewrite Forall_forall in Hm. apply Hm. exact Hin.
  - exact Himg.
  - assert (Hrun : processImage codec this imagePath originalFilename w
                   = (Ok {| original := imagePath; thumbnails := r |}, w')).
    { unfold processImage, bind. rewrite E. reflexivity. }
    exists {| original := imagePath; thumbnails := r |}, w'.
    split; [exact Hrun|]. split; [reflexivity|].
    destruct (processImage_Ok codec this imagePath originalFilename w
                {| original := imagePath; thumbnails := r |})
      as (_ & tes & Ht & _ & Hall); [rewrite Hrun; reflexivity|].
    cbn [thumbnails] in *. rewrite Ht. unfold objKeys at 1.
    assert (Hlen : length (objKeys mappings) = length (map fst tes)).
    { apply Forall2_length in Hall. rewrite length_map. exact Hall. }
    assert (Hk : objKeys (zip (objKeys mappings) (map fst tes)) = objKeys mappings).
    { unfold objKeys at 1. apply fst_zip. lia. }
    split; [exact Hk | rewrite Hk; reflexivity].
Qed.

Lemma processImage_six_thumbnails_witness :
  hasVariantDirs sampleProcessor
  /\ is_Some (disk sampleWorld !! sampleImage)
  /\ exists m w',
      processImage writingCodec sampleProcessor sampleImage "a.png" sampleWorld
      = (Ok m, w')
      /\ original m = sampleImage
      /\ objKeys (thumbnails m) = objKeys mappings
      /\ objKeys (thumbnails m)
         = ["THUMB_50x50"; "THUMB_150x150"; "THUMB_250x250"; "THUMB_500x500";
            "THUMB_1000x1000"; "THUMB_2000x2000"].
Proof.
  assert (H1 : hasVariantDirs sampleProcessor)
    by (repeat constructor; eexists; reflexivity).
  assert (H2 : is_Some (disk sampleWorld !! sampleImage))
    by (eexists; vm_compute; reflexivity).
  split; [exact H1|]. split; [exact H2|].
  exact (processImage_six_thumbnails writingCodec sampleProcessor sampleImage "a.png"
           sampleWorld H1 (writingCodec_valid sampleImage) H2).
Defined.

Lemma resizeImage_never_throws codec i o wd h w :
  (resizeImage codec i o wd h w).1 = Ok tt.
Proof.
  destruct (resizeImage_spec codec i o wd h w) as (w1 & ev & -> & _). reflexivity.
Qed.

(** C2. What the code does when one variant's resize fails and no file is
    at its output path: the error of the resize is swallowed and logged,
    then [fs.statSync] throws, [processImage] rejects, no manifest is
    returned and the three remaining variants are never attempted. *)
Theorem processImage_resize_failure_rejects :
  let run := processImage (failingCodec 250) sampleProcessor sampleImage "a.png"
               sampleWorld in
  run.1 = Throw "ENOENT: no such file or directory, stat '/srv/app/src/uploads/temp/thumbs/250x250/a.png'"
  /\ console run.2 = ["Failed to resize image. Error: unsupported image format"]
  /\ map reqWidth (resizeLog run.2) = [50; 150; 250].
Proof. vm_compute. repeat split. Qed.

Section Recorded.
Variable this : ImageProcessor.
Variables imagePath originalFilename : string.


Lemma recorded_paths keys tes :
  Forall2 (fun key te => recorded this imagePath originalFilename key te.1 te.2)
    keys tes ->
  map (fun kt : string * Thumbnail => (kt.1, path kt.2)) (zip keys (map fst tes))
  = map (fun key => (key, outputPathOf this originalFilename key)) keys
  /\ map outputPath (map snd tes) = map (outputPathOf this originalFilename) keys.
Proof.
  induction 1 as [|key te keys tes Hr _ [IH1 IH2]]; [split; reflexivity|].
  destruct Hr as (dir & dims & Hdir & _ & Hp & _ & Ho & _).
  assert (Eo : outputPathOf this originalFilename key = path te.1)
    by (unfold outputPathOf; rewrite Hdir, Hp; reflexivity).
  cbn [map zip zip_with]. rewrite IH1, IH2, Eo, Ho. split; reflexivity.
Qed.

Lemma recorded_dirs keys tes :
  Forall2 (fun key te => recorded this imagePath originalFilename key te.1 te.2)
    keys tes ->
  Forall (fun kt : string * Thumbnail =>
            exists dir, objGet (filePaths this) kt.1 = Some dir
                        /\ path kt.2 = Path.join [dir; originalFilename])
    (zip keys (map fst tes)).
Proof.
  induction 1 as [|key te keys tes Hr _ IH]; [constructor|].
  cbn [map zip zip_with]. constructor; [|exact IH].
  destruct Hr as (dir & dims & Hdir & _ & Hp & _). exists dir. split; assumption.
Qed.
End Recorded.


Lemma NoDup_map_transfer {A B C : Type} (f : A -> B) (g : A -> C) (l : list A) :
  NoDup (map g l) ->
  (forall x y, In x l -> In y l -> f x = f y -> g x = g y) ->
  NoDup (map f l).
Proof.
  induction l as [|a l IH]; intros Hnd Hfg; [constructor|].
  cbn [map] in *. apply NoDup_cons in Hnd as [Hnotin Hnd]. apply NoDup_cons. split.
  - intros Hin. apply Hnotin. apply list_elem_of_In in Hin. apply in_map_iff in Hin
      as (y & Hy & Hyl).
    apply list_elem_of_In. apply in_map_iff. exists y. split; [|exact Hyl].
    symmetry. apply Hfg; [left; reflexivity | right; exact Hyl | symmetry; exact Hy].
  - apply IH; [exact Hnd|]. intros x y Hx Hy. apply Hfg; right; assumption.
Qed.



(** C7. The path recorded for a variant is [path.join] of the variant's
    configured directory and [originalFilename]; hence two invocations
    with the same [originalFilename], whatever the image, the codec and
    the state of the disk, record the same six paths and hand the same
    six output paths to the codec. *)
Theorem processImage_same_output_paths codec1 codec2 this originalFilename
    image1 image2 w1 w2 m1 m2 :
  (processImage codec1 this image1 originalFilename w1).1 = Ok m1 ->
  (processImage codec2 this image2 originalFilename w2).1 = Ok m2 ->
  Forall (fun kt : string * Thumbnail =>
            exists dir, objGet (filePaths this) kt.1 = Some dir
                        /\ path kt.2 = Path.join [dir; originalFilename])
    (thumbnails m1)
  /\ map (fun kt : string * Thumbnail => (kt.1, path kt.2)) (thumbnails m1)
     = map (fun kt : string * Thumbnail => (kt.1, path kt.2)) (thumbnails m2)
  /\ length (thumbnails m1) = 6%nat
  /\ exists evs1 evs2,
      resizeLog (processImage codec1 this image1 originalFilename w1).2
        = resizeLog w1 ++ evs1
      /\ resizeLog (processImage codec2 this image2 originalFilename w2).2
         = resizeLog w2 ++ evs2
      /\ map outputPath evs1 = map (fun kt => path kt.2) (thumbnails m1)
      /\ map outputPath evs2 = map outputPath evs1.
Proof.
  intros H1 H2.
  apply processImage_Ok in H1 as (_ & tes1 & Ht1 & Hl1 & Hall1).
  apply processImage_Ok in H2 as (_ & tes2 & Ht2 & Hl2 & Hall2).
  destruct (recorded_paths _ _ _ _ _ Hall1) as [P1 O1].
  destruct (recorded_paths _ _ _ _ _ Hall2) as [P2 O2].
  split; [|split; [|split]].
  - rewrite Ht1. exact (recorded_dirs _ _ _ _ _ Hall1).
  - rewrite Ht1, Ht2, P1, P2. reflexivity.
  - rewrite Ht1. rewrite length_zip_with, length_map.
    apply Forall2_length in Hall1. rewrite <- Hall1. reflexivity.
  - exists (map snd tes1), (map snd tes2). repeat split; try assumption.
    + rewrite O1, Ht1.
      replace (map (fun kt : string * Thumbnail => path kt.2)
                 (zip (objKeys mappings) (map fst tes1)))
        with (map snd (map (fun kt : string * Thumbnail => (kt.1, path kt.2))
                         (zip (objKeys mappings) (map fst tes1))))
        by (rewrite map_map; reflexivity).
      rewrite P1, map_map. reflexivity.
    + rewrite O1, O2. reflexivity.
Qed.

Lemma processImage_same_output_paths_witness :
  (processImage writingCodec sampleProcessor sampleImage "a.png" sampleWorld).1
  = Ok sampleManifest
  /\ (processImage (failingCodec 0) sampleProcessor otherImage "a.png" otherWorld).1
     = Ok otherManifest
  /\ sampleManifest <> otherManifest
  /\ map (fun kt : string * Thumbnail => (kt.1, path kt.2)) (thumbnails sampleManifest)
     = map (fun kt : string * Thumbnail => (kt.1, path kt.2)) (thumbnails otherManifest)
  /\ length (thumbnails sampleManifest) = 6%nat.
Proof.
  assert (H1 : (processImage writingCodec sampleProcessor sampleImage "a.png"
                  sampleWorld).1 = Ok sampleManifest) by (vm_compute; reflexivity).
  assert (H2 : (processImage (failingCodec 0) sampleProcessor otherImage "a.png"
                  otherWorld).1 = Ok otherManifest) by (vm_compute; reflexivity).
  split; [exact H1|]. split; [exact H2|]. split; [discriminate|].
  destruct (processImage_same_output_paths writingCodec (failingCodec 0)
              sampleProcessor "a.png" sampleImage otherImage sampleWorld otherWorld
              sampleManifest otherManifest H1 H2) as (_ & Hsame & Hlen & _).
  split; [exact Hsame | exact Hlen].
Defined.








Lemma dividedValue_lt n k c : 0 <= k ->
  (dividedValue n k < inject_Z c)%Q <-> n < c * 1024 ^ k.
Proof.
  intros Hk. pose proof (pow1024_pos k Hk) as Hp. unfold dividedValue.
  destruct (1024 ^ k) as [|p|p] eqn:E; try lia.
  unfold Qlt, Qdiv, Qmult, Qinv, inject_Z. cbn. rewrite ?Z.mul_1_r, ?Pos.mul_1_r.
  reflexivity.
Qed.

Lemma dividedValue_le n k c : 0 <= k ->
  (inject_Z c <= dividedValue n k)%Q <-> c * 1024 ^ k <= n.
Proof.
  intros Hk. pose proof (pow1024_pos k Hk) as Hp. unfold dividedValue.
  destruct (1024 ^ k) as [|p|p] eqn:E; try lia.
  unfold Qle, Qdiv, Qmult, Qinv, inject_Z. cbn. rewrite ?Z.mul_1_r, ?Pos.mul_1_r.
  reflexivity.
Qed.

(** The number of divisions is the number of whole groups of ten bits. *)
Lemma stopsAt_log2 n k : 1 <= n -> stopsAt n k -> k = Z.log2 n `div` 10.
Proof.
  intros Hn (Hk & Hlt & Hmin).
  change 1024%Q with (inject_Z 1024) in Hlt. apply dividedValue_lt in Hlt; [|exact Hk].
  assert (Hlo : 1024 ^ k <= n).
  { destruct (Z.eq_dec k 0) as [->|Hne]; [simpl; lia|].
    specialize (Hmin (k - 1) ltac:(lia)).
    change 1024%Q with (inject_Z 1024) in Hmin.
    apply dividedValue_le in Hmin; [|lia].
    replace (1024 ^ k) with (1024 * 1024 ^ (k - 1)); [exact Hmin|].
    rewrite <- Z.pow_succ_r by lia. f_equal. lia. }
  assert (E1 : 1024 ^ k = 2 ^ (10 * k)) by (rewrite Z.pow_mul_r by lia; reflexivity).
  assert (E2 : 1024 * 1024 ^ k = 2 ^ (10 * k + 10)).
  { rewrite Z.pow_add_r, Z.pow_mul_r by lia. change (2 ^ 10) with 1024. lia. }
  assert (L1 : 10 * k <= Z.log2 n) by (apply Z.log2_le_pow2; lia).
  assert (L2 : Z.log2 n < 10 * k + 10) by (apply Z.log2_lt_pow2; lia).
  apply Z.div_unique with (r := Z.log2 n - 10 * k); lia.
Qed.

(** The result, from the value that was parsed. *)
Lemma humanReadableSize_render bytes : 0 <= parsedBytes bytes ->
  exists k, stopsAt (parsedBytes bytes) k
    /\ humanReadableSize bytes = renderSize (dividedValue (parsedBytes bytes) k) k.
Proof.
  intros Hn.
  destruct (humanReadableSize_unfold bytes Hn) as (k & v & Hs & Hv & _ & E).
  exists k. split; [exact Hs|]. rewrite E, (toFixed_compat _ _ _ Hv).
  assert (Eb : Qltb v 10 = Qltb (dividedValue (parsedBytes bytes) k) 10)
    by (unfold Qltb; rewrite Hv; reflexivity).
  rewrite Eb. clear E Eb Hv v. destruct Hs as (Hk & Hlt & _).
  pose proof (dividedValue_nonneg _ k Hn Hk) as Hnn.
  assert (Hb : (dividedValue (parsedBytes bytes) k < inject_Z (10 ^ 21))%Q).
  { eapply Qlt_trans; [exact Hlt|]. reflexivity. }
  unfold renderSize, Qltb. destruct (k =? 0) eqn:Ek.
  - apply Z.eqb_eq in Ek. subst k. rewrite andb_false_r. cbn [orb].
    rewrite toFixed_0 by assumption. reflexivity.
  - assert ((0 <? k) = true) as -> by (apply Z.ltb_lt; apply Z.eqb_neq in Ek; lia).
    rewrite andb_true_r. cbn [orb].
    destruct (Qle_bool 10 (dividedValue (parsedBytes bytes) k)); cbn [negb].
    + rewrite toFixed_0 by assumption. reflexivity.
    + rewrite toFixed_1 by assumption. reflexivity.
Qed.

Lemma nearest_inject n : nearest (dividedValue n 0) = n.
Proof.
  unfold nearest. apply Qfloor_unique.
  - rewrite dividedValue_0. lra.
  - rewrite dividedValue_0, inject_Z_plus. change (inject_Z 1) with 1%Q. lra.
Qed.

(** A parsed value below 1024 is printed as it is, in bytes. *)
Lemma humanReadableSize_of_parsed bytes n :
  parsedBytes bytes = n -> 0 <= n < 1024 ->
  humanReadableSize bytes = decimal n +:+ " B".
Proof.
  intros E Hn. destruct (humanReadableSize_render bytes ltac:(lia)) as (k & Hs & ->).
  rewrite E in *.
  assert (k = 0).
  { pose proof (stopsAt_below n 0 k ltac:(lia) ltac:(simpl; lia) Hs).
    destruct Hs as (Hk & _). lia. }
  subst k. unfold renderSize. cbn [Z.eqb orb]. rewrite nearest_inject. reflexivity.
Qed.



(** X2. A size below 1024 is printed exactly, digit for digit, in bytes. *)
Theorem humanReadableSize_exact_bytes bytes :
  0 <= bytes < 1024 -> humanReadableSize bytes = decimal bytes +:+ " B".
Proof.
  intros Hb. apply humanReadableSize_of_parsed; [|exact Hb].
  apply parsedBytes_small; [apply isDouble_safe|];
    (eapply Z.lt_trans with 1024; [lia | reflexivity]).
Qed.

Lemma humanReadableSize_exact_bytes_witness :
  0 <= 512 < 1024 /\ humanReadableSize 512 = decimal 512 +:+ " B".
Proof.
  assert (Hb : 0 <= 512 < 1024) by lia.
  split; [exact Hb | exact (humanReadableSize_exact_bytes 512 Hb)].
Defined.

(** X3. From [10^21] on, whatever the size, the result is one digit
    between 1 and 9 followed by [" B"]: the number prints in exponent
    notation and [parseInt] stops at its first digit. *)
Theorem humanReadableSize_huge bytes :
  10 ^ 21 <= bytes ->
  exists d, 1 <= d <= 9 /\ parsedBytes bytes = d
            /\ humanReadableSize bytes = decimal d +:+ " B".
Proof.
  intros Hb. destruct (parsedBytes_large bytes ltac:(lia)) as (d & Hd & E).
  replace (Z.sgn bytes) with 1 in E by lia. exists d. split; [exact Hd|].
  split; [lia|]. apply humanReadableSize_of_parsed; lia.
Qed.

Lemma humanReadableSize_huge_witness :
  10 ^ 21 <= 2 ^ 70
  /\ exists d, 1 <= d <= 9 /\ parsedBytes (2 ^ 70) = d
               /\ humanReadableSize (2 ^ 70) = decimal d +:+ " B".
Proof.
  assert (Hb : 10 ^ 21 <= 2 ^ 70) by (vm_compute; discriminate).
  split; [exact Hb | exact (humanReadableSize_huge (2 ^ 70) Hb)].
Defined.

(** X4. The units ZB and YB of the ladder are never used: for every
    non-negative size the result ends with one of B, KB, MB, GB, TB, PB,
    EB. *)
Theorem humanReadableSize_never_ZB_YB bytes : 0 <= bytes -> isDouble bytes ->
  exists body u,
    humanReadableSize bytes = body +:+ " " +:+ u
    /\ In u ["B"; "KB"; "MB"; "GB"; "TB"; "PB"; "EB"].
Proof.
  intros H0 Hd. destruct (parsedBytes_range bytes H0 Hd) as (Hr & _ & _).
  destruct (humanReadableSize_unfold bytes ltac:(tauto)) as (k & v & Hs & _ & _ & E).
  assert (Hk : k <= 6).
  { apply (stopsAt_below (parsedBytes bytes) 6); [lia| |exact Hs].
    change (1024 ^ (6 + 1)) with 1180591620717411303424.
    change (10 ^ 21) with 1000000000000000000000 in Hr. lia. }
  assert (Hk0 : 0 <= k) by apply Hs.
  eexists; exists (unitAt k). split; [exact E|].
  assert (Hc : k = 0 \/ k = 1 \/ k = 2 \/ k = 3 \/ k = 4 \/ k = 5 \/ k = 6) by lia.
  repeat (destruct Hc as [-> | Hc]); [..|subst k]; cbn; tauto.
Qed.

Lemma humanReadableSize_never_ZB_YB_witness :
  0 <= 2 ^ 80 /\ isDouble (2 ^ 80)
  /\ exists body u,
      humanReadableSize (2 ^ 80) = body +:+ " " +:+ u
      /\ In u ["B"; "KB"; "MB"; "GB"; "TB"; "PB"; "EB"].
Proof.
  assert (H0 : 0 <= 2 ^ 80) by (vm_compute; discriminate).
  assert (Hd : isDouble (2 ^ 80)) by (split; vm_compute; reflexivity).
  split; [exact H0|]. split; [exact Hd|].
  exact (humanReadableSize_never_ZB_YB (2 ^ 80) H0 Hd).
Defined.

(** X5. [parseInt(bytes.toString(), 10)] gives back every integer below
    [10^21] in absolute value: the coercion at the head of the function
    changes no such size. *)
Theorem parseInt_toString_roundtrip x :
  isDouble x -> Z.abs x < 10 ^ 21 ->
  parseInt (toString x) = Some x /\ parsedBytes x = x.
Proof.
  intros Hd Hx. split; [|apply parsedBytes_small; assumption].
  destruct Hd as [Hd _]. unfold toString.
  destruct (Z.eq_dec x 0) as [->|Hn]; [reflexivity|].
  destruct (shortest_small (Z.abs x) ltac:(lia) Hx Hd) as [Hr [Hc0 Hc]].
  rewrite (digits_length_small (shortest (Z.abs x))) by lia.
  destruct (digits_spec (shortest (Z.abs x)) ltac:(lia)) as (d & ds & E & Hall & Hv & _).
  rewrite E. destruct (x <? 0) eqn:Es.
  - apply Z.ltb_lt in Es.
    change ("-" +:+ showDigits (d :: ds)) with (String "-" (showDigits (d :: ds))).
    rewrite <- (append_empty_r (showDigits (d :: ds))).
    rewrite parseInt_negative by (assumption || reflexivity).
    rewrite Hv, Hr. f_equal. lia.
  - apply Z.ltb_ge in Es.
    change ("" +:+ showDigits (d :: ds)) with (showDigits (d :: ds)).
    rewrite <- (append_empty_r (showDigits (d :: ds))).
    rewrite parseInt_unsigned by (assumption || reflexivity).
    rewrite Hv, Hr. f_equal. lia.
Qed.

Lemma parseInt_toString_roundtrip_witness :
  isDouble (- 2 ^ 60) /\ Z.abs (- 2 ^ 60) < 10 ^ 21
  /\ toString (- 2 ^ 60) = "-1152921504606847000"
  /\ parseInt (toString (- 2 ^ 60)) = Some (- 2 ^ 60)
  /\ parsedBytes (- 2 ^ 60) = - 2 ^ 60.
Proof.
  assert (Hd : isDouble (- 2 ^ 60)) by (split; vm_compute; reflexivity).
  assert (Hx : Z.abs (- 2 ^ 60) < 10 ^ 21) by (vm_compute; reflexivity).
  split; [exact Hd|]. split; [exact Hx|]. split; [vm_compute; reflexivity|].
  exact (parseInt_toString_roundtrip (- 2 ^ 60) Hd Hx).
Defined.

(** X6. Below [10^21] a larger size never gets a smaller unit. *)
Theorem humanReadableSize_unit_monotone a b :
  1 <= a -> a <= b -> b < 10 ^ 21 -> isDouble a -> isDouble b ->
  exists ka kb,
    humanReadableSize a = renderSize (dividedValue a ka) ka
    /\ humanReadableSize b = renderSize (dividedValue b kb) kb
    /\ ka <= kb.
Proof.
  intros Ha Hab Hb Hda Hdb.
  assert (Pa : parsedBytes a = a) by (apply parsedBytes_small; [exact Hda | lia]).
  assert (Pb : parsedBytes b = b) by (apply parsedBytes_small; [exact Hdb | lia]).
  destruct (humanReadableSize_render a ltac:(lia)) as (ka & Hsa & Ea).
  destruct (humanReadableSize_render b ltac:(lia)) as (kb & Hsb & Eb).
  rewrite Pa in *. rewrite Pb in *. exists ka, kb. split; [exact Ea|]. split; [exact Eb|].
  rewrite (stopsAt_log2 a ka Ha Hsa), (stopsAt_log2 b kb ltac:(lia) Hsb).
  apply Z.div_le_mono; [lia|]. apply Z.log2_le_mono. exact Hab.
Qed.

Lemma humanReadableSize_unit_monotone_witness :
  1 <= 1023 /\ 1023 <= 1024 /\ 1024 < 10 ^ 21 /\ isDouble 1023 /\ isDouble 1024
  /\ exists ka kb,
      humanReadableSize 1023 = renderSize (dividedValue 1023 ka) ka
      /\ humanReadableSize 1024 = renderSize (dividedValue 1024 kb) kb
      /\ ka <= kb.
Proof.
  assert (H1 : 1 <= 1023) by lia. assert (H2 : 1023 <= 1024) by lia.
  assert (H3 : 1024 < 10 ^ 21) by (vm_compute; reflexivity).
  assert (H4 : isDouble 1023) by (split; vm_compute; reflexivity).
  assert (H5 : isDouble 1024) by (split; vm_compute; reflexivity).
  repeat (split; [assumption|]).
  exact (humanReadableSize_unit_monotone 1023 1024 H1 H2 H3 H4 H5).
Defined.

Module JoinFacts.
Import Path PathFacts.

Lemma split_append a b : split (a +:+ "/" +:+ b) = split a ++ split b.
Proof.
  induction a as [|c a IH].
  - rewrite str_app_nil. change ("/" +:+ b) with (String "/" b). cbn [split].
    change (Ascii.eqb "/" "/") with true. reflexivity.
  - rewrite str_app_cons. cbn [split]. rewrite IH.
    destruct (Ascii.eqb c "/"); [reflexivity|].
    destruct (split_nonempty a) as (seg & segs & ->). reflexivity.
Qed.

Lemma split_concat segs : Forall (fun f => plainSegment f = true) segs -> segs <> [] ->
  split (String.concat "/" segs) = segs.
Proof.
  induction 1 as [|f segs Hf Hall IH]; intros Hne; [contradiction|].
  apply plainSegment_spec in Hf as (_ & _ & _ & _ & Hns).
  destruct segs as [|g segs]; [apply split_noSlash; exact Hns|].
  change (String.concat "/" (f :: g :: segs))
    with (f +:+ "/" +:+ String.concat "/" (g :: segs)).
  rewrite split_append, (split_noSlash f Hns), IH by discriminate. reflexivity.
Qed.

Lemma concat_nonempty segs : Forall (fun f => plainSegment f = true) segs -> segs <> [] ->
  String.concat "/" segs <> "".
Proof.
  intros Hall Hne E. pose proof (split_concat segs Hall Hne) as Hs. rewrite E in Hs.
  cbn in Hs. destruct segs as [|f [|g segs]]; try discriminate; try contradiction.
  injection Hs as <-. apply Forall_inv in Hall. discriminate.
Qed.

Lemma endsWithSlash_concat segs :
  Forall (fun f => plainSegment f = true) segs -> segs <> [] ->
  endsWithSlash (String.concat "/" segs) = false.
Proof.
  induction 1 as [|f segs Hf Hall IH]; intros Hne; [contradiction|].
  pose proof (plainSegment_spec f Hf) as (_ & _ & _ & _ & Hns).
  destruct segs as [|g segs]; [apply endsWithSlash_noSlash; exact Hns|].
  change (String.concat "/" (f :: g :: segs))
    with (f +:+ "/" +:+ String.concat "/" (g :: segs)).
  rewrite <- str_app_assoc, endsWithSlash_app.
  - apply IH. discriminate.
  - apply concat_nonempty; [exact Hall | discriminate].
Qed.

Lemma push_plain_list allow segs : forall res,
  Forall (fun f => plainSegment f = true) segs ->
  fold_left (pushSegment allow) segs res = rev segs ++ res.
Proof.
  induction segs as [|f segs IH]; intros res Hall; [reflexivity|].
  cbn [fold_left rev]. rewrite (pushSegment_plain _ _ f (Forall_inv Hall)).
  rewrite IH by exact (Forall_inv_tail Hall). rewrite <- app_assoc. reflexivity.
Qed.

Lemma concat_append sep l1 l2 : l1 <> [] -> l2 <> [] ->
  String.concat sep (l1 ++ l2) = String.concat sep l1 +:+ sep +:+ String.concat sep l2.
Proof.
  induction l1 as [|a l1 IH]; intros H1 H2; [contradiction|].
  destruct l1 as [|b l1].
  - destruct l2 as [|c l2]; [contradiction | reflexivity].
  - change (String.concat sep ((a :: b :: l1) ++ l2))
      with (a +:+ sep +:+ String.concat sep ((b :: l1) ++ l2)).
    rewrite IH by (discriminate || assumption).
    change (String.concat sep (a :: b :: l1))
      with (a +:+ sep +:+ String.concat sep (b :: l1)).
    rewrite !str_app_assoc. reflexivity.
Qed.

Lemma resolvedDir_spec d : resolvedDir d = true ->
  d <> "" /\ isAbsolute d = true /\ normalize d = d /\ endsWithSlash d = false.
Proof.
  unfold resolvedDir, normalDir. rewrite !andb_true_iff, negb_true_iff.
  intros (Ha & Hn & Ht). apply String.eqb_eq in Hn. repeat split; try assumption.
  intros ->. discriminate.
Qed.

(** Below a resolved directory, plain segments are appended as they are. *)
Lemma normalize_under d segs :
  resolvedDir d = true -> Forall (fun f => plainSegment f = true) segs -> segs <> [] ->
  normalize (d +:+ "/" +:+ String.concat "/" segs)
  = d +:+ "/" +:+ String.concat "/" segs.
Proof.
  intros Hd Hall Hne. destruct (resolvedDir_spec d Hd) as (Hdne & Ha & Hn & Ht).
  assert (Hr : String.concat "/" segs <> "") by (apply concat_nonempty; assumption).
  assert (Ed : String.eqb d "" = false) by (apply String.eqb_neq; exact Hdne).
  unfold normalize in Hn. rewrite Ed, Ha, Ht in Hn. cbn [negb] in Hn.
  assert (Hp : normalizeString d false <> "").
  { intros E. rewrite E in Hn. cbn in Hn. rewrite <- Hn in Ht. discriminate. }
  assert (Ep : String.eqb (normalizeString d false) "" = false)
    by (apply String.eqb_neq; exact Hp).
  rewrite Ep in Hn.
  assert (HNS : normalizeString (d +:+ "/" +:+ String.concat "/" segs) false
                = normalizeString d false +:+ "/" +:+ String.concat "/" segs).
  { unfold normalizeString in *. rewrite split_append, (split_concat segs Hall Hne).
    rewrite fold_left_app, push_plain_list by exact Hall.
    rewrite rev_app_distr, rev_involutive.
    apply concat_append; [|exact Hne]. intros E. rewrite E in Hp. apply Hp. reflexivity. }
  unfold normalize.
  assert (EJ : String.eqb (d +:+ "/" +:+ String.concat "/" segs) "" = false).
  { apply String.eqb_neq. destruct d; [contradiction | discriminate]. }
  rewrite EJ, (isAbsolute_app d _ Hdne), Ha. cbn [negb]. rewrite HNS.
  replace (endsWithSlash (d +:+ "/" +:+ String.concat "/" segs)) with false.
  2:{ symmetry. rewrite <- str_app_assoc, endsWithSlash_app by exact Hr.
      apply endsWithSlash_concat; assumption. }
  assert (Ep' : String.eqb (normalizeString d false +:+ "/" +:+ String.concat "/" segs) ""
                = false).
  { apply String.eqb_neq. destruct (normalizeString d false); [contradiction | discriminate]. }
  rewrite Ep'. rewrite <- Hn at 2. rewrite !str_app_assoc. reflexivity.
Qed.

Lemma join_under d segs :
  resolvedDir d = true -> Forall (fun f => plainSegment f = true) segs -> segs <> [] ->
  join (d :: segs) = d +:+ "/" +:+ String.concat "/" segs
  /\ resolvedDir (d +:+ "/" +:+ String.concat "/" segs) = true.
Proof.
  intros Hd Hall Hne. destruct (resolvedDir_spec d Hd) as (Hdne & Ha & Hn & Ht).
  pose proof (normalize_under d segs Hd Hall Hne) as HN. split.
  - unfold join. cbn [List.filter].
    assert (Ed : String.eqb d "" = false) by (apply String.eqb_neq; exact Hdne).
    rewrite Ed. cbn [negb].
    assert (Hf : List.filter (fun arg => negb (String.eqb arg "")) segs = segs).
    { clear - Hall. induction Hall as [|f segs Hf _ IH]; [reflexivity|].
      cbn [List.filter]. apply plainSegment_spec in Hf as (_ & -> & _). cbn [negb].
      rewrite IH. reflexivity. }
    rewrite Hf. destruct segs as [|f segs]; [contradiction|].
    change (String.concat "/" (d :: f :: segs))
      with (d +:+ "/" +:+ String.concat "/" (f :: segs)).
    exact HN.
  - unfold resolvedDir, normalDir. rewrite HN, String.eqb_refl.
    rewrite (isAbsolute_app d _ Hdne), Ha.
    rewrite <- str_app_assoc, endsWithSlash_app
      by (apply concat_nonempty; assumption).
    rewrite endsWithSlash_concat by assumption. reflexivity.
Qed.

End JoinFacts.

Module ExtFacts.
Import PathExt.

Lemma noSlash_substring s : forall a l,
  (forall j, (a <= j < a + l)%nat -> (j < String.length s)%nat ->
             Ascii.eqb (charAt s j) "/" = false) ->
  noSlash (String.substring a l s) = true.
Proof.
  induction s as [|c s IH]; intros a l H.
  - destruct a, l; reflexivity.
  - destruct a as [|a].
    + destruct l as [|l]; [reflexivity|].
      cbn [String.substring noSlash]. apply andb_true_iff. split.
      * apply negb_true_iff. apply (H 0%nat); cbn; lia.
      * apply IH. intros j Hj Hlen. apply (H (S j)); cbn [String.length]; lia.
    + cbn [String.substring]. apply IH. intros j Hj Hlen.
      apply (H (S j)); cbn [String.length]; lia.
Qed.

Lemma scanned_settled path n st : scanned path n st -> settled path st.
Proof.
  intros [[_ H]|(_ & H0 & Hn & Hall & [H|H])]; [left; exact H | left; exact H |].
  right. split; [lia|]. intros j Hj. apply Hall; lia.
Qed.

Lemma scan_settled path : forall n st,
  scanned path (Z.of_nat n) st -> settled path (scan path n st).
Proof.
  induction n as [|i IH]; intros st Hst; [exact (scanned_settled _ _ _ Hst)|].
  cbn [scan]. destruct (Ascii.eqb (charAt path i) "/") eqn:Ec.
  - destruct (matchedSlash st) eqn:Em; cbn [negb].
    + apply IH. destruct Hst as [H|(Hm & _)]; [left; exact H | congruence].
    + apply (scanned_settled path (Z.of_nat (S i))).
      destruct Hst as [H|(_ & H)]; [left; exact H | right; split; [reflexivity | exact H]].
  - apply IH.
    set (st1 := if endPos st =? -1 then _ else st).
    assert (H1 : scanned path (Z.of_nat i) st1 /\ endPos st1 <> -1
                 /\ (startDot st1 = -1 \/ Z.of_nat i < startDot st1)
                 /\ Z.of_nat i < endPos st1).
    { unfold st1. destruct (endPos st =? -1) eqn:Ee.
      - apply Z.eqb_eq in Ee. destruct Hst as [[_ Hd]|(_ & H0 & Hn & _)]; [|lia].
        cbn. split; [|split; [lia|split; [left; exact Hd|lia]]].
        right. cbn. split; [reflexivity|]. split; [lia|]. split; [lia|].
        split; [|left; exact Hd].
        intros j Hj Hi. assert (j = i) by lia. subst j. exact Ec.
      - apply Z.eqb_neq in Ee.
        destruct Hst as [[He _]|(Hm & H0 & Hn & Hall & Hd)]; [lia|].
        split; [|split; [exact Ee|split; [destruct Hd; [left; assumption|right; lia]|lia]]].
        right. split; [exact Hm|]. split; [lia|]. split; [lia|]. split.
        + intros j Hj Hi. destruct (Nat.eq_dec j i) as [->|Hne]; [exact Ec|].
          apply Hall; lia.
        + destruct Hd as [Hd|Hd]; [left; exact Hd | right; lia]. }
    clearbody st1. destruct H1 as (Hs1 & He1 & Hd1 & Hi1).
    destruct Hs1 as [[He _]|(Hm & H0 & Hn & Hall & Hd)]; [contradiction|].
    destruct (Ascii.eqb (charAt path i) ".").
    + destruct (startDot st1 =? -1) eqn:Es.
      * right. cbn. split; [exact Hm|]. split; [lia|]. split; [lia|].
        split; [exact Hall | right; lia].
      * destruct (negb (preDotState st1 =? 1)); right; cbn;
          (split; [exact Hm|]; split; [lia|]; split; [lia|];
           split; [exact Hall | exact Hd]).
    + destruct (negb (startDot st1 =? -1)); right; cbn;
        (split; [exact Hm|]; split; [lia|]; split; [lia|];
         split; [exact Hall | exact Hd]).
Qed.

Lemma extname_noSlash p : noSlash (extname p) = true.
Proof.
  unfold extname.
  set (st := scan p (String.length p) _).
  assert (Hs : settled p st).
  { apply scan_settled. left. split; reflexivity. }
  destruct (_ || _ || _ || _) eqn:E; [reflexivity|].
  apply orb_false_iff in E as [E _]. apply orb_false_iff in E as [E _].
  apply orb_false_iff in E as [Hd _]. apply Z.eqb_neq in Hd.
  destruct Hs as [Hs|(Hr & Hall)]; [contradiction|].
  apply noSlash_substring. intros j Hj _. apply Hall. lia.
Qed.

End ExtFacts.

Lemma noSlash_app a b : noSlash (a +:+ b) = noSlash a && noSlash b.
Proof.
  induction a as [|c a IH]; [reflexivity|].
  rewrite str_app_cons. cbn [noSlash]. rewrite IH, andb_assoc. reflexivity.
Qed.

Lemma isHexOrDash_not_slash c : isHexOrDash c = true -> Ascii.eqb c "/" = false.
Proof.
  destruct c as [[] [] [] [] [] [] [] []]; vm_compute; intros H;
    (reflexivity || discriminate).
Qed.

Lemma isUuid_spec u : isUuid u = true -> String.length u = 36%nat /\ noSlash u = true.
Proof.
  unfold isUuid. rewrite andb_true_iff. intros [Hl Hc].
  split; [apply Nat.eqb_eq; exact Hl|]. clear Hl.
  induction u as [|c u IH]; [reflexivity|].
  cbn [allChars] in Hc. apply andb_true_iff in Hc as [Hc Hu].
  cbn [noSlash]. rewrite (isHexOrDash_not_slash c Hc), (IH Hu). reflexivity.
Qed.

Lemma long_plain f : (3 <= String.length f)%nat -> noSlash f = true ->
  plainSegment f = true.
Proof.
  intros Hl Hs. unfold plainSegment. rewrite Hs.
  destruct f as [|a [|b [|c f]]]; cbn in Hl; try lia.
  destruct (String.eqb_spec (String a (String b (String c f))) "."); [discriminate|].
  destruct (String.eqb_spec (String a (String b (String c f))) ".."); [discriminate|].
  reflexivity.
Qed.

Lemma diskStorage_filename_plain_aux uuid originalname :
  isUuid uuid = true -> plainSegment (diskStorage_filename uuid originalname) = true.
Proof.
  intros Hu. destruct (isUuid_spec uuid Hu) as [Hl Hs]. unfold diskStorage_filename.
  apply long_plain.
  - rewrite str_app_length. lia.
  - rewrite noSlash_app, Hs, ExtFacts.extname_noSlash. reflexivity.
Qed.

Lemma config_filePaths_resolved B : resolvedDir B = true ->
  config_filePaths B =
  [ ("uploadDir", B +:+ "/uploads");
    ("uploadDirTemp", B +:+ "/uploads/temp");
    ("THUMB_50x50", B +:+ "/uploads/temp/thumbs/50x50");
    ("THUMB_150x150", B +:+ "/uploads/temp/thumbs/150x150");
    ("THUMB_250x250", B +:+ "/uploads/temp/thumbs/250x250");
    ("THUMB_500x500", B +:+ "/uploads/temp/thumbs/500x500");
    ("THUMB_1000x1000", B +:+ "/uploads/temp/thumbs/1000x1000");
    ("THUMB_2000x2000", B +:+ "/uploads/temp/thumbs/2000x2000") ].
Proof.
  intros HB. unfold config_filePaths.
  destruct (JoinFacts.join_under B ["uploads"] HB) as [EU HU];
    [repeat constructor | discriminate |].
  change (B +:+ "/" +:+ String.concat "/" ["uploads"]) with (B +:+ "/uploads") in EU, HU.
  rewrite EU. cbn zeta.
  assert (J : forall segs s, Forall (fun f => plainSegment f = true) segs -> segs <> [] ->
            "/uploads" +:+ "/" +:+ String.concat "/" segs = s ->
            Path.join ((B +:+ "/uploads") :: segs) = B +:+ s).
  { intros segs s Hall Hne <-.
    destruct (JoinFacts.join_under (B +:+ "/uploads") segs HU Hall Hne) as [-> _].
    rewrite str_app_assoc. reflexivity. }
  rewrite (J ["temp"] "/uploads/temp"), (J ["temp"; "thumbs"; "50x50"] "/uploads/temp/thumbs/50x50"),
    (J ["temp"; "thumbs"; "150x150"] "/uploads/temp/thumbs/150x150"),
    (J ["temp"; "thumbs"; "250x250"] "/uploads/temp/thumbs/250x250"),
    (J ["temp"; "thumbs"; "500x500"] "/uploads/temp/thumbs/500x500"),
    (J ["temp"; "thumbs"; "1000x1000"] "/uploads/temp/thumbs/1000x1000"),
    (J ["temp"; "thumbs"; "2000x2000"] "/uploads/temp/thumbs/2000x2000");
    try reflexivity; try discriminate; repeat constructor.
Qed.

Lemma resolved_under B s segs : resolvedDir B = true ->
  Forall (fun f => plainSegment f = true) segs -> segs <> [] ->
  "/" +:+ String.concat "/" segs = s -> resolvedDir (B +:+ s) = true.
Proof.
  intros HB Hall Hne <-. exact (proj2 (JoinFacts.join_under B segs HB Hall Hne)).
Qed.

Lemma str_app_cancel_l a b c : a +:+ b = a +:+ c -> b = c.
Proof.
  induction a as [|x a IH]; intros H; [exact H|].
  rewrite !str_app_cons in H. injection H as H. exact (IH H).
Qed.

Lemma NoDup_between (B fn : string) (l : list string) :
  NoDup l -> NoDup (map (fun s => B +:+ s +:+ fn) l).
Proof.
  intros H. apply (NoDup_map_transfer _ (fun s => s)); [rewrite map_id; exact H|].
  intros x y _ _ E. apply str_app_cancel_l in E. apply str_app_cancel_r in E. exact E.
Qed.

Lemma upload_paths_shape B fn : resolvedDir B = true -> plainSegment fn = true ->
  Path.join [diskStorage_destination B; fn] = B +:+ "/uploads/temp/" +:+ fn
  /\ map (outputPathOf (new_ImageProcessor B) fn) (objKeys mappings)
     = map (fun s => B +:+ s +:+ fn) (map (fun s => s +:+ "/") thumbSuffixes).
Proof.
  intros HB Hfn.
  assert (J : forall segs s t, Forall (fun f => plainSegment f = true) segs -> segs <> [] ->
            "/" +:+ String.concat "/" segs = s -> s +:+ "/" = t ->
            Path.join [B +:+ s; fn] = B +:+ t +:+ fn).
  { intros segs s t Hall Hne Hs <-.
    pose proof (resolved_under B s segs HB Hall Hne Hs) as Hr.
    destruct (JoinFacts.join_under (B +:+ s) [fn] Hr) as [-> _];
      [repeat constructor; exact Hfn | discriminate |].
    change (String.concat "/" [fn]) with fn. rewrite !str_app_assoc. reflexivity. }
  unfold diskStorage_destination, outputPathOf, new_ImageProcessor. cbn [filePaths].
  rewrite (config_filePaths_resolved B HB). cbn [objGet String.eqb Ascii.eqb Bool.eqb].
  split.
  - apply (J ["uploads"; "temp"]); try reflexivity; try discriminate; repeat constructor.
  - cbn [objKeys mappings map fst thumbSuffixes objGet String.eqb Ascii.eqb Bool.eqb].
    rewrite (J ["uploads"; "temp"; "thumbs"; "50x50"] _ "/uploads/temp/thumbs/50x50/"),
      (J ["uploads"; "temp"; "thumbs"; "150x150"] _ "/uploads/temp/thumbs/150x150/"),
      (J ["uploads"; "temp"; "thumbs"; "250x250"] _ "/uploads/temp/thumbs/250x250/"),
      (J ["uploads"; "temp"; "thumbs"; "500x500"] _ "/uploads/temp/thumbs/500x500/"),
      (J ["uploads"; "temp"; "thumbs"; "1000x1000"] _ "/uploads/temp/thumbs/1000x1000/"),
      (J ["uploads"; "temp"; "thumbs"; "2000x2000"] _ "/uploads/temp/thumbs/2000x2000/");
      try reflexivity; try discriminate; repeat constructor.
Qed.

Lemma fileDetailsOf_Ok codec dirname file w d :
  (fileDetailsOf codec dirname file w).1 = Ok d ->
  FileDetails.path d = MulterFile.path file
  /\ FileDetails.fileName d = MulterFile.filename file
  /\ FileDetails.original d = MulterFile.path file
  /\ map (fun kt : string * Thumbnail => (kt.1, path kt.2)) (FileDetails.thumbnails d)
     = map (fun key => (key, outputPathOf (new_ImageProcessor dirname)
                               (MulterFile.filename file) key)) (objKeys mappings).
Proof.
  unfold fileDetailsOf, bind.
  destruct (processImage codec (new_ImageProcessor dirname) (MulterFile.path file)
              (MulterFile.filename file) w) as [[m|e] w'] eqn:E; cbn [ret fst];
    intros H; [|discriminate].
  injection H as <-. cbn.
  assert (Hm : (processImage codec (new_ImageProcessor dirname) (MulterFile.path file)
                  (MulterFile.filename file) w).1 = Ok m) by (rewrite E; reflexivity).
  apply processImage_Ok in Hm as (Ho & tes & Ht & _ & Hall).
  destruct (recorded_paths _ _ _ _ _ Hall) as [P _].
  repeat split; try assumption. rewrite Ht. exact P.
Qed.

Lemma uploadPaths_shape codec B uuid originalname mimetype size w d :
  resolvedDir B = true -> isUuid uuid = true ->
  (fileDetailsOf codec B (storedFile B uuid originalname mimetype size) w).1 = Ok d ->
  uploadPaths d
  = map (fun s => B +:+ s +:+ diskStorage_filename uuid originalname)
      ("/uploads/temp/" :: map (fun s => s +:+ "/") thumbSuffixes).
Proof.
  intros HB Hu H. apply fileDetailsOf_Ok in H as (Hp & _ & _ & Ht).
  pose proof (diskStorage_filename_plain_aux uuid originalname Hu) as Hfn.
  destruct (upload_paths_shape B _ HB Hfn) as [E1 E2].
  unfold uploadPaths. rewrite Hp. cbn [storedFile MulterFile.path MulterFile.filename] in *.
  cbn [map]. f_equal; [exact E1|].
  replace (map (fun kt : string * Thumbnail => path kt.2) (FileDetails.thumbnails d))
    with (map snd (map (fun kt : string * Thumbnail => (kt.1, path kt.2))
                     (FileDetails.thumbnails d)))
    by (rewrite map_map; reflexivity).
  rewrite Ht, map_map. cbn [snd]. exact E2.
Qed.

Lemma last_segment_inj a b f g :
  noSlash f = true -> noSlash g = true ->
  a +:+ "/" +:+ f = b +:+ "/" +:+ g -> f = g.
Proof.
  intros Hf Hg E. apply (f_equal Path.split) in E.
  rewrite (PathFacts.split_app a f Hf), (PathFacts.split_app b g Hg) in E.
  apply app_inj_tail in E as [_ E]. exact E.
Qed.

Lemma str_app_same_length a : forall b x y,
  String.length a = String.length b -> a +:+ x = b +:+ y -> a = b.
Proof.
  induction a as [|c a IH]; intros [|c' b] x y Hl E; try discriminate; [reflexivity|].
  rewrite !str_app_cons in E. injection E as -> E. f_equal.
  apply (IH b x y); [injection Hl as Hl; exact Hl | exact E].
Qed.

(** X7. Whatever the (resolved) directory the application lives in, the
    six variant directories of the configuration are pairwise distinct,
    normalized paths below [uploads/temp/thumbs]. *)
Theorem config_variant_directories B : resolvedDir B = true ->
  variantDirs (new_ImageProcessor B) = map (fun s => Some (B +:+ s)) thumbSuffixes
  /\ NoDup (variantDirs (new_ImageProcessor B))
  /\ Forall (fun key => exists dir,
               objGet (filePaths (new_ImageProcessor B)) key = Some dir
               /\ normalDir dir = true) (objKeys mappings).
Proof.
  intros HB.
  assert (E : variantDirs (new_ImageProcessor B)
              = map (fun s => Some (B +:+ s)) thumbSuffixes).
  { unfold variantDirs, new_ImageProcessor. cbn [filePaths].
    rewrite (config_filePaths_resolved B HB). reflexivity. }
  split; [exact E|]. split.
  - rewrite E. apply (NoDup_map_transfer _ (fun s => s)).
    + rewrite map_id. apply (bool_decide_unpack _). vm_compute. exact I.
    + intros x y _ _ H. injection H as H. exact (str_app_cancel_l _ _ _ H).
  - unfold new_ImageProcessor. cbn [filePaths]. rewrite (config_filePaths_resolved B HB).
    assert (R : forall segs s, Forall (fun f => plainSegment f = true) segs -> segs <> [] ->
              "/" +:+ String.concat "/" segs = s -> normalDir (B +:+ s) = true).
    { intros segs s Hall Hne Hs.
      pose proof (resolved_under B s segs HB Hall Hne Hs) as Hr.
      unfold resolvedDir in Hr. apply andb_true_iff in Hr as [_ Hr]. exact Hr. }
    repeat constructor; eexists; (split; [reflexivity|]).
    + apply (R ["uploads"; "temp"; "thumbs"; "50x50"]);
        try reflexivity; try discriminate; repeat constructor.
    + apply (R ["uploads"; "temp"; "thumbs"; "150x150"]);
        try reflexivity; try discriminate; repeat constructor.
    + apply (R ["uploads"; "temp"; "thumbs"; "250x250"]);
        try reflexivity; try discriminate; repeat constructor.
    + apply (R ["uploads"; "temp"; "thumbs"; "500x500"]);
        try reflexivity; try discriminate; repeat constructor.
    + apply (R ["uploads"; "temp"; "thumbs"; "1000x1000"]);
        try reflexivity; try discriminate; repeat constructor.
    + apply (R ["uploads"; "temp"; "thumbs"; "2000x2000"]);
        try reflexivity; try discriminate; repeat constructor.
Qed.

Lemma config_variant_directories_witness :
  resolvedDir "/var/www/app" = true
  /\ variantDirs (new_ImageProcessor "/var/www/app")
     = map (fun s => Some ("/var/www/app" +:+ s)) thumbSuffixes
  /\ NoDup (variantDirs (new_ImageProcessor "/var/www/app"))
  /\ Forall (fun key => exists dir,
               objGet (filePaths (new_ImageProcessor "/var/www/app")) key = Some dir
               /\ normalDir dir = true) (objKeys mappings).
Proof.
  assert (HB : resolvedDir "/var/www/app" = true) by reflexivity.
  split; [exact HB | exact (config_variant_directories "/var/www/app" HB)].
Defined.

(** X8. The name the disk storage gives an upload, the uuid followed by
    the extension of the client's file name, is always one ordinary path
    segment, whatever the client sent. *)
Theorem diskStorage_filename_plain uuid originalname :
  isUuid uuid = true ->
  plainSegment (diskStorage_filename uuid originalname) = true
  /\ noSlash (PathExt.extname originalname) = true.
Proof.
  intros Hu. split; [exact (diskStorage_filename_plain_aux uuid originalname Hu)|].
  apply ExtFacts.extname_noSlash.
Qed.

Lemma diskStorage_filename_plain_witness :
  isUuid sampleUuid = true
  /\ diskStorage_filename sampleUuid "../../etc/passwd.d/../x.png/"
     = sampleUuid +:+ ".png"
  /\ plainSegment (diskStorage_filename sampleUuid "../../etc/passwd.d/../x.png/") = true
  /\ noSlash (PathExt.extname "../../etc/passwd.d/../x.png/") = true.
Proof.
  assert (Hu : isUuid sampleUuid = true) by reflexivity.
  split; [exact Hu|]. split; [reflexivity|].
  exact (diskStorage_filename_plain sampleUuid "../../etc/passwd.d/../x.png/" Hu).
Defined.

(** X9. In the upload route the stored file and its six derivatives have
    seven pairwise distinct paths: no derivative overwrites another one
    or the upload itself. *)
Theorem upload_paths_distinct codec B uuid originalname mimetype size w d :
  resolvedDir B = true -> isUuid uuid = true ->
  (fileDetailsOf codec B (storedFile B uuid originalname mimetype size) w).1 = Ok d ->
  length (uploadPaths d) = 7%nat /\ NoDup (uploadPaths d).
Proof.
  intros HB Hu H. rewrite (uploadPaths_shape _ _ _ _ _ _ _ _ HB Hu H).
  split; [reflexivity|]. apply NoDup_between.
  apply (bool_decide_unpack _). vm_compute. exact I.
Qed.

Lemma upload_paths_distinct_witness :
  length (uploadPaths sampleFileDetails) = 7%nat /\ NoDup (uploadPaths sampleFileDetails).
Proof.
  apply (upload_paths_distinct writingCodec "/srv/app/src" sampleUuid
           "../../holiday.photo.JPG" "image/jpeg" 204800 uploadWorld).
  - vm_compute. reflexivity.
  - vm_compute. reflexivity.
  - vm_compute. reflexivity.
Defined.

(** X10. Two uploads stored under different uuids touch disjoint sets of
    paths, whatever their original names, the codec and the disk. *)
Theorem uploads_do_not_collide codec1 codec2 B uuid1 uuid2 name1 name2 mime1 mime2
    size1 size2 w1 w2 d1 d2 :
  resolvedDir B = true -> isUuid uuid1 = true -> isUuid uuid2 = true ->
  uuid1 <> uuid2 ->
  (fileDetailsOf codec1 B (storedFile B uuid1 name1 mime1 size1) w1).1 = Ok d1 ->
  (fileDetailsOf codec2 B (storedFile B uuid2 name2 mime2 size2) w2).1 = Ok d2 ->
  forall p, In p (uploadPaths d1) -> ~ In p (uploadPaths d2).
Proof.
  intros HB Hu1 Hu2 Hne H1 H2 p Hp1 Hp2.
  rewrite (uploadPaths_shape _ _ _ _ _ _ _ _ HB Hu1 H1) in Hp1.
  rewrite (uploadPaths_shape _ _ _ _ _ _ _ _ HB Hu2 H2) in Hp2.
  apply in_map_iff in Hp1 as (s1 & <- & Hs1). apply in_map_iff in Hp2 as (s2 & E & Hs2).
  apply str_app_cancel_l in E.
  assert (Hslash : forall s, In s ("/uploads/temp/" :: map (fun s => s +:+ "/") thumbSuffixes)
                     -> exists a, s = a +:+ "/").
  { intros s Hs. unfold thumbSuffixes in Hs. cbn [map In] in Hs.
    destruct Hs as [<- | Hs]; [exists "/uploads/temp"; reflexivity|].
    repeat (destruct Hs as [<- | Hs]; [eexists; reflexivity|]). contradiction. }
  destruct (Hslash s1 Hs1) as (a1 & ->). destruct (Hslash s2 Hs2) as (a2 & ->).
  rewrite !str_app_assoc in E.
  pose proof (diskStorage_filename_plain_aux uuid1 name1 Hu1) as P1.
  pose proof (diskStorage_filename_plain_aux uuid2 name2 Hu2) as P2.
  apply PathFacts.plainSegment_spec in P1 as (_ & _ & _ & _ & N1).
  apply PathFacts.plainSegment_spec in P2 as (_ & _ & _ & _ & N2).
  apply last_segment_inj in E; [|assumption|assumption].
  unfold diskStorage_filename in E. apply Hne.
  apply (str_app_same_length uuid1 uuid2 (PathExt.extname name1) (PathExt.extname name2));
    [|symmetry; exact E].
  destruct (isUuid_spec uuid1 Hu1) as [-> _]. destruct (isUuid_spec uuid2 Hu2) as [-> _].
  reflexivity.
Qed.

Lemma uploads_do_not_collide_witness :
  sampleUuid <> otherUuid /\
  forall p, In p (uploadPaths sampleFileDetails) -> ~ In p (uploadPaths otherFileDetails).
Proof.
  split; [discriminate|].
  apply (uploads_do_not_collide writingCodec guardedCodec "/srv/app/src"
           sampleUuid otherUuid "../../holiday.photo.JPG" "holiday.photo.JPG"
           "image/jpeg" "image/jpeg" 204800 5000 uploadWorld uploadWorld).
  - vm_compute. reflexivity.
  - vm_compute. reflexivity.
  - vm_compute. reflexivity.
  - discriminate.
  - vm_compute. reflexivity.
  - vm_compute. reflexivity.
Defined.

Lemma last_cons {A : Type} (l : list A) : forall a d,
  List.last (a :: l) d = List.last l a.
Proof.
  induction l as [|b l IH]; intros a d; [reflexivity|].
  change (List.last (a :: b :: l) d) with (List.last (b :: l) d).
  rewrite (IH b d), (IH b a). reflexivity.
Qed.

Section PipelineTrace.
Variable codec : gmap string Z -> string -> string -> Z -> Z -> gmap string Z * option string.

Lemma resizeImage_full i o wd h w :
  exists w1 ev,
    resizeImage codec i o wd h w = (Ok tt, w1)
    /\ resizeLog w1 = resizeLog w ++ [ev] /\ disk w1 = diskAfter ev
    /\ console w1 = console w ++ failureLines [ev]
    /\ inputPath ev = i /\ outputPath ev = o /\ reqWidth ev = wd /\ reqHeight ev = h
    /\ codec (disk w) i o wd h = (diskAfter ev, failure ev).
Proof.
  unfold resizeImage, bind, sharp.
  destruct (codec (disk w) i o wd h) as [d [msg|]]; cbn;
    eexists; eexists; repeat split; rewrite ?app_nil_r; reflexivity.
Qed.

Variable this : ImageProcessor.
Variables imagePath originalFilename : string.

Lemma throwReason_cons key keys w' e :
  throwReason this imagePath originalFilename keys w' e ->
  throwReason this imagePath originalFilename (key :: keys) w' e.
Proof.
  intros [(k & Hin & H)|[(k & Hin & H)|(p & He & Hd & [Hp|(k & Hin & Hp)])]].
  - left. exists k. split; [right; exact Hin | exact H].
  - right. left. exists k. split; [right; exact Hin | exact H].
  - right. right. exists p. repeat split; try assumption. left. exact Hp.
  - right. right. exists p. repeat split; try assumption. right. exists k.
    split; [right; exact Hin | exact Hp].
Qed.

Lemma forKeys_trace keys : forall res w,
  exists evs,
    resizeLog (forKeys codec this imagePath originalFilename keys res w).2
      = resizeLog w ++ evs
    /\ console (forKeys codec this imagePath originalFilename keys res w).2
       = console w ++ failureLines evs
    /\ replayed codec (disk w) evs
    /\ disk (forKeys codec this imagePath originalFilename keys res w).2
       = lastDisk (disk w) evs
    /\ (forall e, (forKeys codec this imagePath originalFilename keys res w).1 = Throw e ->
          throwReason this imagePath originalFilename keys
            (forKeys codec this imagePath originalFilename keys res w).2 e).
Proof.
  induction keys as [|key keys IH]; intros res w.
  - exists []. cbn. rewrite !app_nil_r. repeat split. intros e H. discriminate.
  - rewrite forKeys_step.
    destruct (objGet (filePaths this) key) as [dir|] eqn:Edir.
    2:{ exists []. cbn. rewrite !app_nil_r. repeat split. intros e H. injection H as <-.
        left. exists key. repeat split; [left; reflexivity | exact Edir]. }
    cbn zeta. destruct (objGet mappings key) as [dims|] eqn:Edims.
    2:{ exists []. cbn. rewrite !app_nil_r. repeat split. intros e H.
        right. left. exists key. split; [left; reflexivity | exact Edims]. }
    destruct (resizeImage_full imagePath (Path.join [dir; originalFilename])
                (width dims) (height dims) w)
      as (w1 & ev & -> & Hlog & Hdisk & Hcon & Hi & Ho & Hw & Hh & Hcodec).
    cbn [snd].
    assert (Hrep : replayed codec (disk w) [ev]).
    { cbn. rewrite Hi, Ho, Hw, Hh. split; [exact Hcodec | exact I]. }
    assert (Hout : outputPathOf this originalFilename key
                   = Path.join [dir; originalFilename])
      by (unfold outputPathOf; rewrite Edir; reflexivity).
    assert (Hstop : forall p, disk w1 !! p = None ->
              p = imagePath \/ p = Path.join [dir; originalFilename] ->
              exists evs,
                resizeLog (Throw (enoent p) : result (list (string * Thumbnail)), w1).2
                  = resizeLog w ++ evs
                /\ console (Throw (enoent p) : result (list (string * Thumbnail)), w1).2
                   = console w ++ failureLines evs
                /\ replayed codec (disk w) evs
                /\ disk (Throw (enoent p) : result (list (string * Thumbnail)), w1).2
                   = lastDisk (disk w) evs
                /\ (forall e,
                      (Throw (enoent p) : result (list (string * Thumbnail)), w1).1 = Throw e ->
                      throwReason this imagePath originalFilename (key :: keys)
                        (Throw (enoent p) : result (list (string * Thumbnail)), w1).2 e)).
    { intros p Hnone Hp. exists [ev]. cbn [fst snd].
      split; [exact Hlog|]. split; [exact Hcon|]. split; [exact Hrep|].
      split; [exact Hdisk|]. intros e H. injection H as <-.
      right. right. exists p. split; [reflexivity|]. split; [exact Hnone|].
      destruct Hp as [Hp|Hp]; [left; exact Hp|].
      right. exists key. split; [left; reflexivity | rewrite Hout; exact Hp]. }
    unfold statSync_size.
    destruct (disk w1 !! imagePath) as [osz|] eqn:Eo;
      [|apply (Hstop imagePath Eo); left; reflexivity].
    destruct (disk w1 !! Path.join [dir; originalFilename]) as [sz|] eqn:Es;
      [|apply (Hstop _ Es); right; reflexivity].
    match goal with
    | |- context [forKeys _ _ _ _ keys ?r w1] =>
        destruct (IH r w1) as (evs & Hl & Hc & Hr & Hd & He)
    end.
    exists (ev :: evs).
    split; [rewrite Hl, Hlog, <- app_assoc; reflexivity|].
    split.
    { rewrite Hc, Hcon. unfold failureLines. cbn [flat_map].
      rewrite app_nil_r, <- app_assoc. reflexivity. }
    split.
    { cbn. rewrite Hi, Ho, Hw, Hh. split; [exact Hcodec|]. rewrite <- Hdisk. exact Hr. }
    split.
    { rewrite Hd, Hdisk. unfold lastDisk. cbn [map]. rewrite last_cons. reflexivity. }
    intros e H. apply throwReason_cons. apply He. exact H.
Qed.
End PipelineTrace.

Section ProcessImageTrace.
Variable codec : gmap string Z -> string -> string -> Z -> Z -> gmap string Z * option string.
Variable this : ImageProcessor.
Variables imagePath originalFilename : string.

Lemma processImage_run w :
  (processImage codec this imagePath originalFilename w).2
  = (forKeys codec this imagePath originalFilename (objKeys mappings) [] w).2
  /\ forall e, (processImage codec this imagePath originalFilename w).1 = Throw e ->
       (forKeys codec this imagePath originalFilename (objKeys mappings) [] w).1 = Throw e.
Proof.
  unfold processImage, bind.
  destruct (forKeys codec this imagePath originalFilename (objKeys mappings) [] w)
    as [[r|e'] w']; cbn [ret fst snd]; split; try reflexivity; intros e H;
    [discriminate | injection H as <-; reflexivity].
Qed.

Lemma processImage_trace w :
  exists evs,
    resizeLog (processImage codec this imagePath originalFilename w).2
      = resizeLog w ++ evs
    /\ console (processImage codec this imagePath originalFilename w).2
       = console w ++ failureLines evs
    /\ replayed codec (disk w) evs
    /\ disk (processImage codec this imagePath originalFilename w).2
       = lastDisk (disk w) evs
    /\ (forall e, (processImage codec this imagePath originalFilename w).1 = Throw e ->
          throwReason this imagePath originalFilename (objKeys mappings)
            (processImage codec this imagePath originalFilename w).2 e).
Proof.
  destruct (processImage_run w) as [E2 E1].
  destruct (forKeys_trace codec this imagePath originalFilename (objKeys mappings) [] w)
    as (evs & Hl & Hc & Hr & Hd & He).
  exists evs. rewrite E2. repeat split; try assumption.
  intros e H. apply He, E1, H.
Qed.

Lemma replayed_keeps evs : forall d,
  keepsImage codec imagePath -> Forall (fun ev => inputPath ev = imagePath) evs ->
  replayed codec d evs ->
  Forall (fun ev => diskAfter ev !! imagePath = d !! imagePath) evs.
Proof.
  induction evs as [|ev evs IH]; intros d Hk Hin Hr; [constructor|].
  destruct Hr as [Hc Hr]. pose proof (Forall_inv Hin) as Hi.
  assert (E : diskAfter ev !! imagePath = d !! imagePath).
  { rewrite Hi in Hc. specialize (Hk d (outputPath ev) (reqWidth ev) (reqHeight ev)).
    rewrite Hc in Hk. exact Hk. }
  constructor; [exact E|].
  specialize (IH (diskAfter ev) Hk (Forall_inv_tail Hin) Hr).
  eapply Forall_impl; [exact IH|]. intros e' H. cbn in H. rewrite H. exact E.
Qed.
End ProcessImageTrace.

(** X11. Every manifest [processImage] returns, also after resizes that
    failed, names the image as [original] and has one entry for each of
    the six keys of the table, in table order: the manifest does not tell
    a failed variant from a produced one. *)
Theorem processImage_manifest_shape codec this imagePath originalFilename w m :
  (processImage codec this imagePath originalFilename w).1 = Ok m ->
  original m = imagePath
  /\ objKeys (thumbnails m) = objKeys mappings
  /\ length (thumbnails m) = 6%nat.
Proof.
  intros H. apply processImage_Ok in H as (Ho & tes & Ht & _ & Hall).
  split; [exact Ho|]. apply Forall2_length in Hall.
  assert (Hk : objKeys (thumbnails m) = objKeys mappings).
  { rewrite Ht. unfold objKeys at 1. apply fst_zip. rewrite length_map. lia. }
  split; [exact Hk|]. unfold objKeys in Hk.
  rewrite <- (length_map fst), Hk. reflexivity.
Qed.

Lemma processImage_manifest_shape_witness :
  (processImage rejectingCodec sampleProcessor sampleImage "a.png" staleWorld).1
  = Ok staleManifest
  /\ map failure
       (resizeLog
          (processImage rejectingCodec sampleProcessor sampleImage "a.png" staleWorld).2)
     = repeat (Some "Input file contains unsupported image format") 6
  /\ original staleManifest = sampleImage
  /\ objKeys (thumbnails staleManifest) = objKeys mappings
  /\ length (thumbnails staleManifest) = 6%nat.
Proof.
  assert (H : (processImage rejectingCodec sampleProcessor sampleImage "a.png"
                 staleWorld).1 = Ok staleManifest) by (vm_compute; reflexivity).
  split; [exact H|]. split; [vm_compute; reflexivity|].
  exact (processImage_manifest_shape rejectingCodec sampleProcessor sampleImage "a.png"
           staleWorld staleManifest H).
Defined.

(** X12. Whether it returns or throws, [processImage] prints exactly one
    line, ["Failed to resize image. Error: "] and the message, for each
    codec call that failed, in the order of the calls, and nothing else. *)
Theorem resize_failures_logged codec this imagePath originalFilename w :
  exists evs,
    resizeLog (processImage codec this imagePath originalFilename w).2
      = resizeLog w ++ evs
    /\ console (processImage codec this imagePath originalFilename w).2
       = console w ++ failureLines evs.
Proof.
  destruct (processImage_trace codec this imagePath originalFilename w)
    as (evs & Hl & Hc & _).
  exists evs. split; assumption.
Qed.



(** X14. When the directory of one of the six variants is not configured,
    [processImage] never returns a manifest: it throws, whatever the
    codec and the disk. *)
Theorem processImage_missing_directory codec this imagePath originalFilename w key :
  In key (objKeys mappings) -> objGet (filePaths this) key = None ->
  exists e, (processImage codec this imagePath originalFilename w).1 = Throw e.
Proof.
  intros Hin Hnone.
  destruct (processImage codec this imagePath originalFilename w).1 as [m|e] eqn:E;
    [|exists e; reflexivity].
  exfalso. apply processImage_Ok in E as (_ & tes & _ & _ & Hall).
  apply list_elem_of_In in Hin. apply list_elem_of_lookup in Hin as [i Hi].
  destruct (Forall2_lookup_l _ _ _ _ _ Hall Hi) as (te & _ & Hr).
  destruct Hr as (dir & dims & Hdir & _). congruence.
Qed.

Lemma processImage_missing_directory_witness :
  let this := {| baseDir := "/srv/app/src";
                 filePaths := [("THUMB_50x50", "/srv/app/src/uploads/temp/thumbs/50x50")] |} in
  In "THUMB_150x150" (objKeys mappings)
  /\ objGet (filePaths this) "THUMB_150x150" = None
  /\ exists e, (processImage writingCodec this sampleImage "a.png" sampleWorld).1 = Throw e.
Proof.
  intros this.
  assert (H1 : In "THUMB_150x150" (objKeys mappings)) by (cbn; tauto).
  assert (H2 : objGet (filePaths this) "THUMB_150x150" = None) by reflexivity.
  split; [exact H1|]. split; [exact H2|].
  exact (processImage_missing_directory writingCodec this sampleImage "a.png"
           sampleWorld "THUMB_150x150" H1 H2).
Defined.

Lemma guardedCodec_keepsImage (image : string) : keepsImage guardedCodec image.
Proof.
  intros d out w h. unfold guardedCodec.
  destruct (String.eqb image out) eqn:E; [reflexivity|].
  apply String.eqb_neq in E. unfold writingCodec.
  destruct (d !! image) eqn:Ed; cbn [fst]; [|exact Ed].
  rewrite lookup_insert_ne by (intros ->; now apply E). exact Ed.
Qed.

(** X15. [originalSize] is read from the image after each resize. When
    the codec leaves the image alone, all six entries of a returned
    manifest carry the same [originalSize]: the size the image had when
    the call began. *)
Theorem originalSize_constant codec this imagePath originalFilename w m bytes :
  keepsImage codec imagePath ->
  disk w !! imagePath = Some bytes ->
  (processImage codec this imagePath originalFilename w).1 = Ok m ->
  Forall (fun kt : string * Thumbnail => originalSize kt.2 = humanReadableSize bytes)
    (thumbnails m).
Proof.
  intros Hk Himg H. apply processImage_Ok in H as (_ & tes & Ht & Hl & Hall).
  destruct (processImage_trace codec this imagePath originalFilename w)
    as (evs & Hl' & _ & Hr & _).
  rewrite Hl in Hl'. apply app_inv_head in Hl'. subst evs.
  assert (Hin : Forall (fun ev => inputPath ev = imagePath) (map snd tes)).
  { clear - Hall. induction Hall as [|key te keys tes Hr _ IH]; [constructor|].
    cbn [map]. constructor; [|exact IH].
    destruct Hr as (dir & dims & _ & _ & _ & Hi & _). exact Hi. }
  pose proof (replayed_keeps codec imagePath _ _ Hk Hin Hr) as Hkeep.
  rewrite Ht. clear - Hall Hkeep Himg.
  induction Hall as [|key te keys tes Hr _ IH]; [constructor|].
  cbn [map zip zip_with] in *. constructor.
  - destruct Hr as (dir & dims & _ & _ & _ & _ & _ & _ & _ & _ & (sz & Hsz & Ho)).
    cbn [snd]. rewrite Ho. f_equal.
    pose proof (Forall_inv Hkeep) as E. cbn in E. rewrite E, Himg in Hsz.
    injection Hsz as <-. reflexivity.
  - apply IH. exact (Forall_inv_tail Hkeep).
Qed.

Lemma originalSize_constant_witness :
  Forall (fun kt : string * Thumbnail => originalSize kt.2 = humanReadableSize 204800)
    (thumbnails sampleManifest).
Proof.
  apply (originalSize_constant guardedCodec sampleProcessor sampleImage "a.png" sampleWorld).
  - apply guardedCodec_keepsImage.
  - vm_compute. reflexivity.
  - vm_compute. reflexivity.
Defined.

(** X16. [processImage] itself never writes: the disk it leaves is the
    one the codec calls produce, each from the disk the previous one
    left, starting from the disk of the call. *)
Theorem disk_changes_only_through_codec codec this imagePath originalFilename w :
  exists evs,
    resizeLog (processImage codec this imagePath originalFilename w).2
      = resizeLog w ++ evs
    /\ replayed codec (disk w) evs
    /\ disk (processImage codec this imagePath originalFilename w).2
       = lastDisk (disk w) evs.
Proof.
  destruct (processImage_trace codec this imagePath originalFilename w)
    as (evs & Hl & _ & Hr & Hd & _).
  exists evs. repeat split; assumption.
Qed.

(** * Facts about the file helpers *)

Lemma list_max_In (l : list nat) (n : nat) : In n l -> (n <= list_max l)%nat.
Proof.
  induction l as [|a l IH]; cbn [In]; [tauto|].
  change (list_max (a :: l)) with (Nat.max a (list_max l)).
  intros [->|H]; [|specialize (IH H)]; lia.
Qed.

Lemma longestPath_bound (fs : gmap string Entry) (p : string) (e : Entry) :
  fs !! p = Some e -> (String.length p <= longestPath fs)%nat.
Proof.
  intros H. unfold longestPath. apply list_max_In.
  apply (in_map (fun kv : string * Entry => String.length kv.1) _ (p, e)).
  apply list_elem_of_In, elem_of_map_to_list. exact H.
Qed.

Section Listing.
Variable fs : gmap string Entry.

Lemma FileUnder_via (dir : string) (names : list string) (p : string) :
  fs !! dir = Some (Dir names) ->
  FileUnder fs dir p <-> foundVia fs dir names p.
Proof.
  intros Hd. split.
  - intros H. destruct H as [dir names0 file H1 H2 H3|dir names0 file names' p H1 H2 H3 H4];
      rewrite Hd in H1; injection H1 as <-; exists file; split; auto.
    right. exists names'. auto.
  - intros (file & Hin & [[Hf ->]|(names' & Hf & Hu)]).
    + eapply FileHere; eauto.
    + eapply FileBelow; eauto.
Qed.

Lemma Broken_via (dir : string) (names : list string) :
  fs !! dir = Some (Dir names) ->
  Broken fs dir <-> brokenVia fs dir names.
Proof.
  intros Hd. split.
  - intros H. destruct H as [dir H1|dir H1|dir names0 file H1 H2 H3|dir names0 file names' H1 H2 H3 H4];
      rewrite Hd in H1; try discriminate; injection H1 as <-; exists file; split; auto.
    right. exists names'. auto.
  - intros (file & Hin & [Hf|(names' & Hf & Hb)]).
    + eapply BrokenName; eauto.
    + eapply BrokenBelow; eauto.
Qed.

Lemma name_longer (dir file : string) :
  (String.length dir < String.length (dir +:+ "/" +:+ file))%nat.
Proof. rewrite !str_app_length. cbn. lia. Qed.

Lemma forNames_outcome (fuel : nat) (dir : string)
    (IH : forall d files_, listingOutcome fs fuel d (FileUnder fs d) (Broken fs d) files_
                             (getFilesFuel fuel fs d files_))
    (Hlen : (String.length dir <= longestPath fs)%nat)
    (names : list string) (files_ : list string) :
  listingOutcome fs (S fuel) dir (foundVia fs dir names) (brokenVia fs dir names) files_
    (forNames (getFilesFuel fuel fs) fs dir names files_).
Proof.
  revert files_. induction names as [|file rest IHn]; intros files_.
  - cbn. split.
    + exists []. rewrite app_nil_r. split; [reflexivity|].
      intros p. split; [intros []|]. intros (f & [] & _).
    + intros (f & [] & _).
  - cbn [forNames]. unfold statSync_isDirectory.
    destruct (fs !! (dir +:+ "/" +:+ file)) as [[|names']|] eqn:Hf.
    + specialize (IHn (files_ ++ [dir +:+ "/" +:+ file])).
      destruct (forNames _ fs dir rest _) as [l|e l|]; unfold listingOutcome in IHn |- *.
      * destruct IHn as [(new & -> & Hnew) Hnb]. split.
        -- exists ((dir +:+ "/" +:+ file) :: new). rewrite <- app_assoc. split; [reflexivity|].
           intros p. cbn [In]. rewrite Hnew. split.
           ++ intros [<-|(f & Hin & Hc)].
              ** exists file. split; [now left|]. left. auto.
              ** exists f. split; [now right|]. exact Hc.
           ++ intros (f & [<-|Hin] & Hc).
              ** destruct Hc as [[_ ->]|(ns & Hc & _)]; [now left|]. congruence.
              ** right. exists f. auto.
        -- intros (f & [<-|Hin] & Hc).
           ++ destruct Hc as [Hc|(ns & Hc & _)]; congruence.
           ++ apply Hnb. exists f. auto.
      * destruct IHn as [(new & ->) Hb]. split.
        -- exists ((dir +:+ "/" +:+ file) :: new). rewrite <- app_assoc. reflexivity.
        -- destruct Hb as (f & Hin & Hc). exists f. split; [now right|]. exact Hc.
      * exact IHn.
    + pose proof (IH (dir +:+ "/" +:+ file) files_) as Hrec.
      destruct (getFilesFuel fuel fs (dir +:+ "/" +:+ file) files_) as [l|e l|];
        unfold listingOutcome in Hrec.
      * destruct Hrec as [(new1 & -> & Hnew1) Hnb1].
        specialize (IHn (files_ ++ new1)).
        destruct (forNames _ fs dir rest _) as [l|e l|]; unfold listingOutcome in IHn |- *.
        -- destruct IHn as [(new & -> & Hnew) Hnb]. split.
           ++ exists (new1 ++ new). rewrite app_assoc. split; [reflexivity|].
              intros p. rewrite in_app_iff, Hnew1, Hnew. split.
              ** intros [Hu|(f & Hin & Hc)].
                 --- exists file. split; [now left|]. right. exists names'. auto.
                 --- exists f. split; [now right|]. exact Hc.
              ** intros (f & [<-|Hin] & Hc).
                 --- destruct Hc as [[Hc _]|(ns & _ & Hu)]; [congruence|]. now left.
                 --- right. exists f. auto.
           ++ intros (f & [<-|Hin] & Hc).
              ** destruct Hc as [Hc|(ns & _ & Hb)]; [congruence|]. auto.
              ** apply Hnb. exists f. auto.
        -- destruct IHn as [(new & ->) Hb]. split.
           ++ exists (new1 ++ new). rewrite app_assoc. reflexivity.
           ++ destruct Hb as (f & Hin & Hc). exists f. split; [now right|]. exact Hc.
        -- exact IHn.
      * cbn. destruct Hrec as [Hpre Hb]. split; [exact Hpre|].
        exists file. split; [now left|]. right. exists names'. auto.
      * cbn. pose proof (longestPath_bound _ _ _ Hf).
        pose proof (name_longer dir file). lia.
    + cbn. split.
      * exists []. now rewrite app_nil_r.
      * exists file. split; [now left|]. now left.
Qed.

Lemma getFilesFuel_outcome (fuel : nat) (dir : string) (files_ : list string) :
  listingOutcome fs fuel dir (FileUnder fs dir) (Broken fs dir) files_
    (getFilesFuel fuel fs dir files_).
Proof.
  revert dir files_. induction fuel as [|fuel IH]; intros dir files_.
  - cbn. lia.
  - cbn [getFilesFuel]. unfold readdirSync.
    destruct (fs !! dir) as [[|names]|] eqn:Hd.
    + cbn. split; [exists []; now rewrite app_nil_r|]. now apply BrokenNotDir.
    + pose proof (forNames_outcome fuel dir IH (longestPath_bound _ _ _ Hd) names files_) as H.
      destruct (forNames _ fs dir names files_) as [l|e l|]; unfold listingOutcome in H |- *.
      * destruct H as [(new & -> & Hnew) Hnb]. split.
        -- exists new. split; [reflexivity|]. intros p. rewrite Hnew.
           symmetry. now apply FileUnder_via.
        -- rewrite (Broken_via dir names Hd). exact Hnb.
      * destruct H as [Hpre Hb]. split; [exact Hpre|].
        rewrite (Broken_via dir names Hd). exact Hb.
      * exact H.
    + cbn. split; [exists []; now rewrite app_nil_r|]. now apply BrokenMissing.
Qed.

Lemma getFiles_outcome (dir : string) (files_ : list string) :
  match getFiles fs dir files_ with
  | Returned l =>
      (exists new, l = files_ ++ new /\ forall p, In p new <-> FileUnder fs dir p)
      /\ ~ Broken fs dir
  | Thrown e l => (exists new, l = files_ ++ new) /\ Broken fs dir
  | OutOfFuel => False
  end.
Proof.
  pose proof (getFilesFuel_outcome (S (longestPath fs - String.length dir)) dir files_) as H.
  unfold getFiles. destruct (getFilesFuel _ fs dir files_); unfold listingOutcome in H; [exact H|exact H|lia].
Qed.

Lemma FileUnder_is_file (dir p : string) :
  FileUnder fs dir p -> fs !! p = Some File.
Proof. induction 1; auto. Qed.

Lemma getFilesSyncFuel_same (fuel : nat) (dir : string) (files_ : list string) :
  getFilesSyncFuel fuel fs dir files_ = getFilesFuel fuel fs dir files_.
Proof.
  revert dir files_. induction fuel as [|fuel IH]; intros dir files_; [reflexivity|].
  cbn [getFilesSyncFuel getFilesFuel]. destruct (readdirSync fs dir) as [names|e]; [|reflexivity].
  revert files_. induction names as [|file rest IHn]; intros files_; [reflexivity|].
  cbn [forNamesSync forNames].
  destruct (statSync_isDirectory fs (dir +:+ "/" +:+ file)) as [[|]|e]; [| |reflexivity].
  - rewrite IH. destruct (getFilesFuel fuel fs _ files_); auto.
  - apply IHn.
Qed.

End Listing.

Lemma sampleMkdir_contract : mkdirContract sampleMkdir.
Proof.
  intros fs path r fs' E. unfold sampleMkdir in E.
  destruct (fs !! path) as [[|names]|] eqn:Hp; [discriminate| |];
    injection E as <- <-; unfold existsSync.
  - rewrite Hp. auto.
  - rewrite lookup_insert_eq. split; [reflexivity|]. intros q.
    destruct (decide (path = q)) as [->|Hne].
    + now rewrite lookup_insert_eq.
    + now rewrite lookup_insert_ne.
Qed.

Lemma objGet_of_keys {V : Type} (o : list (string * V)) (key : string) :
  In key (objKeys o) -> exists v, objGet o key = Some v /\ In (key, v) o.
Proof.
  unfold objKeys. induction o as [|[k v] o IH]; cbn; [tauto|].
  intros H. destruct (String.eqb k key) eqn:E.
  - apply String.eqb_eq in E as ->. exists v. auto.
  - destruct H as [->|H]; [rewrite String.eqb_refl in E; discriminate|].
    destruct (IH H) as (v' & Hv & Hin). exists v'. auto.
Qed.

Section FileSystemFacts.
Variable mkdirSync :
  gmap string Entry -> string -> result (option string) * gmap string Entry.

Lemma ensureDirs_present (this : ImageProcessor) (keys : list string)
    (fs : gmap string Entry) :
  Forall (fun key => exists dir, objGet (filePaths this) key = Some dir /\
                                 existsSync fs dir = true) keys ->
  ensureDirs mkdirSync this keys fs = (Ok tt, fs).
Proof.
  induction 1 as [|key rest (dir & Hd & He) _ IH]; [reflexivity|].
  cbn [ensureDirs]. rewrite Hd, He. exact IH.
Qed.

Lemma ensureDirs_Ok (this : ImageProcessor) (keys : list string)
    (fs fs' : gmap string Entry) :
  mkdirContract mkdirSync ->
  ensureDirs mkdirSync this keys fs = (Ok tt, fs') ->
  (forall q, existsSync fs q = true -> existsSync fs' q = true) /\
  Forall (fun key => exists dir, objGet (filePaths this) key = Some dir /\
                                 existsSync fs' dir = true) keys.
Proof.
  intros HC. revert fs. induction keys as [|key rest IH]; intros fs E.
  - injection E as <-. auto.
  - cbn [ensureDirs] in E. destruct (objGet (filePaths this) key) as [dir|] eqn:Hd;
      [|discriminate].
    destruct (existsSync fs dir) eqn:He; cbn [negb] in E.
    + destruct (IH _ E) as [Hf Hall]. split; [exact Hf|].
      constructor; [|exact Hall]. exists dir. auto.
    + destruct (mkdirSync fs dir) as [[r|e] fs1] eqn:Em; [|discriminate].
      destruct (HC _ _ _ _ Em) as [Hp Hf1]. destruct (IH _ E) as [Hf Hall].
      split; [auto|]. constructor; [|exact Hall]. exists dir. auto.
Qed.

End FileSystemFacts.

(** * The file helpers *)

(** X17. [getFiles] finishes on every file system and directory, and the
    array it was given is only appended to, whether the call returns or
    throws half way. *)
Theorem getFiles_finishes_appending (fs : gmap string Entry) (dir : string)
    (files_ : list string) :
  exists new,
    getFiles fs dir files_ = Returned (files_ ++ new) \/
    exists e, getFiles fs dir files_ = Thrown e (files_ ++ new).
Proof.
  pose proof (getFiles_outcome fs dir files_) as H.
  destruct (getFiles fs dir files_) as [l|e l|]; [| |contradiction].
  - destruct H as [(new & -> & _) _]. exists new. now left.
  - destruct H as [(new & ->) _]. exists new. right. now exists e.
Qed.

(** X18. When [getFiles] returns, what it added to the array is exactly
    the files below the directory: a path was added if and only if it is
    reached from [dir] through listed directories and is not a directory
    itself; each of them exists ([dirExistSync] answers true for it,
    although it is a file). *)
Theorem getFiles_lists_files_below (fs : gmap string Entry) (dir : string)
    (files_ l : list string) :
  getFiles fs dir files_ = Returned l ->
  exists new,
    l = files_ ++ new /\
    (forall p, In p new <-> FileUnder fs dir p) /\
    (forall p, In p new ->
       dirExistSync fs p = true /\ statSync_isDirectory fs p = Ok false).
Proof.
  intros E. pose proof (getFiles_outcome fs dir files_) as H. rewrite E in H.
  destruct H as [(new & -> & Hnew) _]. exists new. split; [reflexivity|].
  split; [exact Hnew|]. intros p Hp. apply Hnew, FileUnder_is_file in Hp.
  unfold dirExistSync, existsSync, statSync_isDirectory. now rewrite Hp.
Qed.

Lemma getFiles_lists_files_below_witness :
  exists new,
    ["x"; "/data/a.png"; "/data/thumbs/50x50/a.png"; "/data/thumbs/notes.txt";
     "/data/b.png"] = ["x"] ++ new /\
    (forall p, In p new <-> FileUnder sampleTree "/data" p) /\
    (forall p, In p new ->
       dirExistSync sampleTree p = true /\
       statSync_isDirectory sampleTree p = Ok false).
Proof.
  apply (getFiles_lists_files_below sampleTree "/data" ["x"]).
  vm_compute. reflexivity.
Defined.


(** X20. [getFilesSync] and [getFiles] give the same outcome on every
    file system, directory and array. *)
Theorem getFilesSync_agrees (fs : gmap string Entry) (dir : string)
    (files_ : list string) :
  getFilesSync fs dir files_ = getFiles fs dir files_.
Proof. apply getFilesSyncFuel_same. Qed.

(** X21. With an [fs.mkdirSync] that does what it is asked (the path is
    there when it returns, nothing that was there has gone), a
    constructor call that returns leaves a directory behind every key of
    [config.filePaths], keeps everything that existed, and hands back the
    processor with the configured paths. *)
Theorem constructor_provisions
    (mkdirSync : gmap string Entry -> string ->
                 result (option string) * gmap string Entry)
    (dirname : string) (fs fs' : gmap string Entry) (this : ImageProcessor) :
  mkdirContract mkdirSync ->
  ImageProcessor_constructor mkdirSync dirname fs = (Ok this, fs') ->
  this = new_ImageProcessor dirname /\
  (forall key, In key (objKeys (config_filePaths dirname)) ->
     exists dir, objGet (filePaths this) key = Some dir /\
                 existsSync fs' dir = true) /\
  (forall q, existsSync fs q = true -> existsSync fs' q = true).
Proof.
  intros HC E. unfold ImageProcessor_constructor in E.
  destruct (ensureDirs _ _ _ fs) as [[[]|e] fs1] eqn:Ee; [|discriminate].
  injection E as <- <-. destruct (ensureDirs_Ok _ _ _ _ _ HC Ee) as [Hf Hall].
  split; [reflexivity|]. split; [|exact Hf].
  intros key Hk. exact (proj1 (List.Forall_forall _ _) Hall key Hk).
Qed.

Lemma constructor_provisions_witness :
  new_ImageProcessor "/srv/app/src" = new_ImageProcessor "/srv/app/src" /\
  (forall key, In key (objKeys (config_filePaths "/srv/app/src")) ->
     exists dir, objGet (filePaths (new_ImageProcessor "/srv/app/src")) key = Some dir /\
                 existsSync provisionedTree dir = true) /\
  (forall q, existsSync ∅ q = true -> existsSync provisionedTree q = true).
Proof.
  apply (constructor_provisions sampleMkdir "/srv/app/src" ∅).
  - exact sampleMkdir_contract.
  - vm_compute. reflexivity.
Defined.

(** X22. Once a directory is behind every key of [config.filePaths], the
    constructor touches nothing: it returns the processor and the file
    system as it was, whatever [fs.mkdirSync] would do (it is not
    called). *)
Theorem constructor_idempotent
    (mkdirSync : gmap string Entry -> string ->
                 result (option string) * gmap string Entry)
    (dirname : string) (fs : gmap string Entry) :
  (forall key, In key (objKeys (config_filePaths dirname)) ->
     exists dir, objGet (config_filePaths dirname) key = Some dir /\
                 existsSync fs dir = true) ->
  ImageProcessor_constructor mkdirSync dirname fs =
  (Ok (new_ImageProcessor dirname), fs).
Proof.
  intros H. unfold ImageProcessor_constructor.
  rewrite ensureDirs_present; [reflexivity|].
  apply List.Forall_forall. exact H.
Qed.

Lemma constructor_idempotent_witness :
  ImageProcessor_constructor refusingMkdir "/srv/app/src" provisionedTree =
  (Ok (new_ImageProcessor "/srv/app/src"), provisionedTree).
Proof.
  apply (constructor_idempotent refusingMkdir "/srv/app/src").
  intros key Hk. cbn in Hk.
  repeat (destruct Hk as [<-|Hk]; [eexists; split; vm_compute; reflexivity|]).
  destruct Hk.
Defined.

(** X23. [createDirectory] never returns [true]: it returns [false]
    exactly when the path already exists, and then touches nothing;
    otherwise it hands back what [fs.mkdirSync] returned (a path or
    [undefined]) or throws what it threw. When it returns, the path
    exists, provided [fs.mkdirSync] does what it is asked. *)
Theorem createDirectory_result
    (mkdirSync : gmap string Entry -> string ->
                 result (option string) * gmap string Entry)
    (fs fs' : gmap string Entry) (path : string) (v : JsValue) :
  mkdirContract mkdirSync ->
  createDirectory mkdirSync fs path = (Ok v, fs') ->
  v <> JsBoolean true /\
  (v = JsBoolean false <-> existsSync fs path = true) /\
  (existsSync fs path = true -> fs' = fs) /\
  existsSync fs' path = true /\
  (forall q, existsSync fs q = true -> existsSync fs' q = true).
Proof.
  intros HC E. unfold createDirectory in E.
  destruct (existsSync fs path) eqn:He; cbn [negb] in E.
  - injection E as <- <-. repeat split; auto; discriminate.
  - destruct (mkdirSync fs path) as [[[first|]|e] fs1] eqn:Em; [| |discriminate];
      injection E as <- <-; destruct (HC _ _ _ _ Em) as [Hp Hf];
      repeat split; auto; discriminate.
Qed.

Lemma createDirectory_result_witness :
  JsString "/data/new" <> JsBoolean true /\
  (JsString "/data/new" = JsBoolean false <-> existsSync sampleTree "/data/new" = true) /\
  (existsSync sampleTree "/data/new" = true ->
   <["/data/new" := Dir []]> sampleTree = sampleTree) /\
  existsSync (<["/data/new" := Dir []]> sampleTree) "/data/new" = true /\
  (forall q, existsSync sampleTree q = true ->
             existsSync (<["/data/new" := Dir []]> sampleTree) q = true).
Proof.
  apply (createDirectory_result sampleMkdir sampleTree).
  - exact sampleMkdir_contract.
  - reflexivity.
Defined.

(** X24. The [destination] callback of the disk storage hands multer the
    temporary upload directory of the configuration, [<base>/uploads/temp]
    for a resolved base directory, and that directory exists by then. *)
Theorem diskStorage_destination_ready
    (mkdirSync : gmap string Entry -> string ->
                 result (option string) * gmap string Entry)
    (BASE_DIR : string) (fs fs' : gmap string Entry) (destination : string) :
  mkdirContract mkdirSync ->
  resolvedDir BASE_DIR = true ->
  diskStorage_destination_cb mkdirSync BASE_DIR fs = (Ok destination, fs') ->
  destination = BASE_DIR +:+ "/uploads/temp" /\
  existsSync fs' destination = true /\
  (existsSync fs destination = true -> fs' = fs) /\
  (forall q, existsSync fs q = true -> existsSync fs' q = true).
Proof.
  intros HC HB E. unfold diskStorage_destination_cb in E.
  assert (Hd : diskStorage_destination BASE_DIR = BASE_DIR +:+ "/uploads/temp").
  { unfold diskStorage_destination. rewrite (config_filePaths_resolved _ HB). reflexivity. }
  rewrite Hd in E. unfold createDirectory in E.
  destruct (existsSync fs (BASE_DIR +:+ "/uploads/temp")) eqn:He; cbn [negb] in E.
  - injection E as <- <-. auto.
  - destruct (mkdirSync fs _) as [[[first|]|e] fs1] eqn:Em; [| |discriminate];
      injection E as <- <-; destruct (HC _ _ _ _ Em) as [Hp Hf];
      (split; [reflexivity|]); (split; [exact Hp|]); (split; [|exact Hf]);
      rewrite He; discriminate.
Qed.

Lemma diskStorage_destination_ready_witness :
  "/srv/app/src/uploads/temp" = "/srv/app/src" +:+ "/uploads/temp" /\
  existsSync (<["/srv/app/src/uploads/temp" := Dir []]> sampleTree)
    "/srv/app/src/uploads/temp" = true /\
  (existsSync sampleTree "/srv/app/src/uploads/temp" = true ->
   <["/srv/app/src/uploads/temp" := Dir []]> sampleTree = sampleTree) /\
  (forall q, existsSync sampleTree q = true ->
             existsSync (<["/srv/app/src/uploads/temp" := Dir []]> sampleTree) q = true).
Proof.
  apply (diskStorage_destination_ready sampleMkdir "/srv/app/src" sampleTree).
  - exact sampleMkdir_contract.
  - vm_compute. reflexivity.
  - vm_compute. reflexivity.
Defined.

(** X25. [deleteFile] never throws. A path that does not exist is left
    alone ([fs.unlinkSync] is not called, nothing is logged); for a path
    that exists the file system is the one [fs.unlinkSync] leaves, and
    the message of the error it throws, if any, is the one line logged. *)
Theorem deleteFile_contained
    (unlinkSync : gmap string Entry -> string -> result unit * gmap string Entry)
    (h : Host) (path : string) :
  exists h',
    deleteFile unlinkSync h path = (Ok tt, h') /\
    (existsSync (tree h) path = false -> h' = h) /\
    (existsSync (tree h) path = true ->
       tree h' = (unlinkSync (tree h) path).2 /\
       stdout h' = stdout h ++
                   match (unlinkSync (tree h) path).1 with
                   | Ok _ => []
                   | Throw message => [message]
                   end).
Proof.
  unfold deleteFile. destruct (existsSync (tree h) path) eqn:He.
  - destruct (unlinkSync (tree h) path) as [[u|message] fs1]; eexists;
      (split; [reflexivity|]); (split; [discriminate|]); intros _; cbn;
      rewrite ?app_nil_r; auto.
  - exists h. split; [reflexivity|]. split; [auto|discriminate].
Qed.
